(** * Credential Provider of the ssgrpc backend (backend/ssgrpc/cred.go)

    A shallow embedding of [perRPCCreds], its method [GetRequestMetadata]
    and [RequireTransportSecurity], followed by an interleaving model of
    several goroutines calling [GetRequestMetadata] on one credential. *)

From Stdlib Require Import ZArith.
From Stdlib.Strings Require Import Byte.
From stdpp Require Import gmap strings list pretty.

Local Open Scope Z_scope.

(** ** Machine integers *)

(** Go's [int64]: a [Z] kept in range by wrapping after each operation. *)
Definition min64 : Z := - 2 ^ 63.
Definition max64 : Z := 2 ^ 63 - 1.

Definition int64 (z : Z) : Prop := min64 <= z <= max64.

Definition wrap64 (z : Z) : Z := (z + 2 ^ 63) mod 2 ^ 64 - 2 ^ 63.

Definition sub64 (a b : Z) : Z := wrap64 (a - b).

(** [time.Hour], a [time.Duration] counted in nanoseconds. *)
Definition Hour : Z := 3600 * 1000000000.

(** ** Data *)

(** The struct of cred.go. The field [l *sync.RWMutex], taken to point to
    an allocated mutex, carries no data of its own; its acquisitions and
    releases are events of the call (and lock state in
    [Module Goroutines]). *)
Record perRPCCreds : Type := mkCreds {
  tokenStr    : string;
  tokenExpire : Z;
  sharedKey   : list byte;
}.

Inductive field : Type := FtokenStr | FtokenExpire | FsharedKey.

(** Go's [error] interface value, reduced to its message. *)
Inductive error : Type := Err (msg : string).

(** Modelled from the spec: package [token] is not among the sources. The
    result of [token.GenUserToken] is a [*User] whose field [EXP] is the
    absolute Unix expiry ("issue(subject, ttl, secret) -> (token,
    expiresAtUnix)"), the signed token string, and an [error]. *)
Record User : Type := mkUser {
  Username : string;
  EXP      : Z;
}.

Inductive GenResult : Type :=
| GenOk (u : User) (t : string)
| GenErr (e : error).

(** What one call may ask of its surroundings: the clock reading of
    [time.Now().Unix()] and the answer of [token.GenUserToken] to the
    arguments it is given. *)
Record Env : Type := mkEnv {
  now          : Z;
  GenUserToken : string -> Z -> list byte -> GenResult;
}.

(** Observable effects of a call, in program order. *)
Inductive event : Type :=
| EvRLock | EvRUnlock | EvLock | EvUnlock
| EvLoad (f : field)
| EvStore (f : field)
| EvNow (t : Z)
| EvGen (subject : string) (ttl : Z) (key : list byte)
| EvLogErr (msg : string) (err : error)
| EvLogInfo (msg : string).

(** ** A state-and-trace monad for method bodies *)

Definition M (A : Type) : Type :=
  Env -> perRPCCreds -> A * perRPCCreds * list event.

#[export] Instance M_ret : MRet M := fun A a _ c => (a, c, []).

#[export] Instance M_bind : MBind M := fun A B k m E c =>
  let '(a, c1, t1) := m E c in
  let '(b, c2, t2) := k a E c1 in
  (b, c2, t1 ++ t2).

Definition emit (e : event) : M unit := fun _ c => (tt, c, [e]).

Definition RLock : M unit := emit EvRLock.
Definition RUnlock : M unit := emit EvRUnlock.
Definition Lock : M unit := emit EvLock.
Definition Unlock : M unit := emit EvUnlock.

Definition load_tokenExpire : M Z :=
  fun _ c => (tokenExpire c, c, [EvLoad FtokenExpire]).
Definition load_tokenStr : M string :=
  fun _ c => (tokenStr c, c, [EvLoad FtokenStr]).
Definition load_sharedKey : M (list byte) :=
  fun _ c => (sharedKey c, c, [EvLoad FsharedKey]).

Definition store_tokenExpire (v : Z) : M unit :=
  fun _ c => (tt, mkCreds (tokenStr c) v (sharedKey c), [EvStore FtokenExpire]).
Definition store_tokenStr (v : string) : M unit :=
  fun _ c => (tt, mkCreds v (tokenExpire c) (sharedKey c), [EvStore FtokenStr]).

Definition time_Now_Unix : M Z := fun E c => (now E, c, [EvNow (now E)]).

Definition token_GenUserToken (subject : string) (ttl : Z) (key : list byte)
  : M GenResult :=
  fun E c => (GenUserToken E subject ttl key, c, [EvGen subject ttl key]).

Definition log_Err (msg : string) (err : error) : M unit :=
  emit (EvLogErr msg err).
Definition log_Info (msg : string) : M unit := emit (EvLogInfo msg).

(** ** The methods of [perRPCCreds] *)

(** [func (c *perRPCCreds) GetRequestMetadata(ctx, uri ...string)
      (map[string]string, error)], statement by statement. *)
Definition GetRequestMetadata {Context : Type} (ctx : Context) (uri : list string)
  : M (gmap string string * option error) :=
  RLock ;;
  exp ← load_tokenExpire ;
  tok ← load_tokenStr ;
  sharedKey ← load_sharedKey ;
  RUnlock ;;
  let meta : gmap string string := ∅ in
  t ← time_Now_Unix ;
  if sub64 exp 300 <? t then
    r ← token_GenUserToken "ssgrpcClient" Hour sharedKey ;
    match r with
    | GenErr err =>
        log_Err "gen token error:" err ;;
        mret (meta, Some err)
    | GenOk u t =>
        let exp := EXP u in
        let tok := t in
        Lock ;;
        store_tokenExpire exp ;;
        store_tokenStr tok ;;
        Unlock ;;
        log_Info "token refreshed" ;;
        mret (<["authorization" := "Bearer " +:+ tok]> meta, None)
    end
  else
    mret (<["authorization" := "Bearer " +:+ tok]> meta, None).

(** [func (c *perRPCCreds) RequireTransportSecurity() bool]. *)
Definition RequireTransportSecurity (c : perRPCCreds) : bool := true.

(** ** Reading the outcome of a call *)

Definition returned {A} (o : A * perRPCCreds * list event) : A := o.1.1.
Definition stored {A} (o : A * perRPCCreds * list event) : perRPCCreds := o.1.2.
Definition events {A} (o : A * perRPCCreds * list event) : list event := o.2.

(** The call asked the Token Authority for a token. *)
Definition issues (tr : list event) : Prop :=
  ∃ subject ttl key, EvGen subject ttl key ∈ tr.

Definition is_store (e : event) : bool :=
  match e with EvStore _ => true | _ => false end.

(** The events every call starts with: the read section and the clock. *)
Definition read_section (t : Z) : list event :=
  [EvRLock; EvLoad FtokenExpire; EvLoad FtokenStr; EvLoad FsharedKey;
   EvRUnlock; EvNow t].

(** The events of the exclusive section. *)
Definition write_section : list event :=
  [EvLock; EvStore FtokenExpire; EvStore FtokenStr; EvUnlock].

Definition bearer (tok : string) : gmap string string :=
  {[ "authorization" := "Bearer " +:+ tok ]}.

(** ** A sample Token Authority for the worked examples *)

(** Modelled from the spec: package [token] is not among the sources.
    "issue(subject, ttl, secret) -> (token, expiresAtUnix)": issued at clock
    reading [t], the expiry is [t] plus the time-to-live in seconds; the
    string, subject and expiry in clear, stands for the signed token. *)
Definition sampleIssue (t : Z) (subject : string) (ttl : Z) (key : list byte)
  : GenResult :=
  let exp := t + ttl / 1000000000 in
  GenOk (mkUser subject exp) (subject +:+ "." +:+ pretty exp).

Definition sampleFailure (subject : string) (ttl : Z) (key : list byte)
  : GenResult :=
  GenErr (Err "signing failed").

Definition sampleEnv (t : Z) : Env := mkEnv t (sampleIssue t).
Definition failingEnv (t : Z) : Env := mkEnv t sampleFailure.

(** The zero value of the two token fields, next to a key. *)
Definition freshCreds (key : list byte) : perRPCCreds := mkCreds "" 0 key.

(** ** The token string and the expiry it encodes *)

(** Modelled from the spec: package [token] is not among the sources.
    [encodes t e] reads "the expiry encoded in token string [t] is [e]",
    what "validate(token, secret) -> (subject, expiresAtUnix)" reports. The
    invariant of the data model, "expiresAtUnix always reflects the expiry
    encoded in tokenString", is [agrees]. *)
Definition agrees (encodes : string → Z → Prop) (c : perRPCCreds) : Prop :=
  encodes (tokenStr c) (tokenExpire c).

(** Modelled from the spec: a Token Authority whose issued token encodes
    the expiry it reports next to it. *)
Definition authority_agrees (encodes : string → Z → Prop) (E : Env) : Prop :=
  ∀ subject ttl key u t,
    GenUserToken E subject ttl key = GenOk u t → encodes t (EXP u).

(** Modelled from the spec: what the sample authority's token strings
    encode, the expiry printed after the subject. *)
Definition sampleEncodes (t : string) (e : Z) : Prop :=
  ∃ subject : string, t = subject +:+ "." +:+ pretty e.

(** ** Goroutines calling [GetRequestMetadata] on one credential *)

(** Several goroutines run the method body on the same [*perRPCCreds]. All
    accesses to the shared fields happen under [c.l], so the program is
    free of data races and its runs are the interleavings of the
    statements below. The two log lines touch nothing shared and are left
    out; clock readings and answers of the Token Authority come in as
    inputs of the steps that ask for them, with no constraint. *)
Module Goroutines.

(** The statement a goroutine executes next. *)
Inductive point : Type :=
| AtRLock          (* c.l.RLock() *)
| AtLoadExpire     (* exp = c.tokenExpire *)
| AtLoadStr        (* tok = c.tokenStr *)
| AtLoadKey        (* sharedKey = c.sharedKey *)
| AtRUnlock        (* c.l.RUnlock() *)
| AtTest           (* if exp-300 < time.Now().Unix() *)
| AtGen            (* u, t, err := token.GenUserToken(...); exp = u.EXP; tok = t *)
| AtLock           (* c.l.Lock(): announce the writer *)
| AtLockWait       (* c.l.Lock(): wait for the readers to leave *)
| AtStoreExpire    (* c.tokenExpire = exp *)
| AtStoreStr       (* c.tokenStr = tok *)
| AtUnlock         (* c.l.Unlock() *)
| AtReturn         (* meta["authorization"] = "Bearer " + tok; return meta, nil *)
| Done.

(** The locals of one call and, once it has returned, its results. *)
Record frame : Type := mkFrame {
  pc       : point;
  l_exp    : Z;
  l_tok    : string;
  l_key    : list byte;
  l_result : option (gmap string string * option error);
}.

(** A call that has not started: Go zeroes the locals. *)
Definition entry : frame := mkFrame AtRLock 0 "" [] None.

(** [sync.RWMutex]: the number of readers inside, and whether a writer has
    announced itself (new readers then wait) or holds the lock. *)
Inductive wphase : Type := NoWriter | WriterWaiting | WriterHolds.

Record state : Type := mkState {
  creds       : perRPCCreds;
  readerCount : nat;
  writer      : wphase;
  goroutines  : list frame;
}.

Definition init (c : perRPCCreds) (n : nat) : state :=
  mkState c 0 NoWriter (replicate n entry).

(** What a step takes from outside the program. *)
Inductive input : Type :=
| Internal
| Clock (t : Z)
| Issued (r : GenResult).

Definition label : Type := nat * input.

Definition set_frame (s : state) (i : nat) (f : frame) : state :=
  mkState (creds s) (readerCount s) (writer s) (<[i := f]> (goroutines s)).

Definition goto (f : frame) (p : point) : frame :=
  mkFrame p (l_exp f) (l_tok f) (l_key f) (l_result f).

(** One statement of goroutine [i]; [None] where it cannot run: the
    goroutine is blocked on the lock, the input is of the wrong kind, or
    the statement would panic. *)
Definition step (s : state) (l : label) : option state :=
  let '(i, a) := l in
  f ← goroutines s !! i ;
  match pc f, a with
  | AtRLock, Internal =>
      match writer s with
      | NoWriter =>
          Some (mkState (creds s) (S (readerCount s)) (writer s)
                  (<[i := goto f AtLoadExpire]> (goroutines s)))
      | _ => None
      end
  | AtLoadExpire, Internal =>
      Some (set_frame s i
              (mkFrame AtLoadStr (tokenExpire (creds s)) (l_tok f) (l_key f)
                 (l_result f)))
  | AtLoadStr, Internal =>
      Some (set_frame s i
              (mkFrame AtLoadKey (l_exp f) (tokenStr (creds s)) (l_key f)
                 (l_result f)))
  | AtLoadKey, Internal =>
      Some (set_frame s i
              (mkFrame AtRUnlock (l_exp f) (l_tok f) (sharedKey (creds s))
                 (l_result f)))
  | AtRUnlock, Internal =>
      match readerCount s with
      | S r =>
          Some (mkState (creds s) r (writer s)
                  (<[i := goto f AtTest]> (goroutines s)))
      | O => None
      end
  | AtTest, Clock t =>
      if sub64 (l_exp f) 300 <? t
      then Some (set_frame s i (goto f AtGen))
      else Some (set_frame s i (goto f AtReturn))
  | AtGen, Issued (GenErr err) =>
      Some (set_frame s i
              (mkFrame Done (l_exp f) (l_tok f) (l_key f) (Some (∅, Some err))))
  | AtGen, Issued (GenOk u t) =>
      Some (set_frame s i (mkFrame AtLock (EXP u) t (l_key f) (l_result f)))
  | AtLock, Internal =>
      match writer s with
      | NoWriter =>
          Some (mkState (creds s) (readerCount s) WriterWaiting
                  (<[i := goto f AtLockWait]> (goroutines s)))
      | _ => None
      end
  | AtLockWait, Internal =>
      match writer s, readerCount s with
      | WriterWaiting, O =>
          Some (mkState (creds s) O WriterHolds
                  (<[i := goto f AtStoreExpire]> (goroutines s)))
      | _, _ => None
      end
  | AtStoreExpire, Internal =>
      Some (mkState
              (mkCreds (tokenStr (creds s)) (l_exp f) (sharedKey (creds s)))
              (readerCount s) (writer s)
              (<[i := goto f AtStoreStr]> (goroutines s)))
  | AtStoreStr, Internal =>
      Some (mkState
              (mkCreds (l_tok f) (tokenExpire (creds s)) (sharedKey (creds s)))
              (readerCount s) (writer s)
              (<[i := goto f AtUnlock]> (goroutines s)))
  | AtUnlock, Internal =>
      match writer s with
      | WriterHolds =>
          Some (mkState (creds s) (readerCount s) NoWriter
                  (<[i := goto f AtReturn]> (goroutines s)))
      | _ => None
      end
  | AtReturn, Internal =>
      Some (set_frame s i
              (mkFrame Done (l_exp f) (l_tok f) (l_key f)
                 (Some (<["authorization" := "Bearer " +:+ l_tok f]> ∅, None))))
  | _, _ => None
  end.

(** A run: the labels taken one after the other. *)
Fixpoint run (s : state) (tr : list label) : option state :=
  match tr with
  | [] => Some s
  | l :: tr' => s' ← step s l ; run s' tr'
  end.

(** The (token string, expiry) pairs that exist as a whole during a run: the
    pair the credential started with, and one pair for each answer of the
    Token Authority. *)
Definition issued_pair (l : label) : list (string * Z) :=
  match l with
  | (_, Issued (GenOk u t)) => [(t, EXP u)]
  | _ => []
  end.

Definition whole_pairs (c0 : perRPCCreds) (tr : list label)
  : list (string * Z) :=
  (tokenStr c0, tokenExpire c0) :: (tr ≫= issued_pair).

(** The pair the credential holds, when no writer is inside. *)
Definition quiescent (s : state) : list (string * Z) :=
  match writer s with
  | WriterHolds => []
  | _ => [(tokenStr (creds s), tokenExpire (creds s))]
  end.

(** The pairs the credential held, with no writer inside, in the states a
    run went through after [s]; [stored_along] has the one of [s] too. *)
Fixpoint stored_after (s : state) (tr : list label) : list (string * Z) :=
  match tr with
  | [] => []
  | l :: tr' =>
      match step s l with
      | Some s' => quiescent s' ++ stored_after s' tr'
      | None => []
      end
  end.

Definition stored_along (s : state) (tr : list label) : list (string * Z) :=
  quiescent s ++ stored_after s tr.

(** The goroutine holds a read lock; holds the write lock; has announced
    itself as writer. *)
Definition reading (p : point) : bool :=
  match p with
  | AtLoadExpire | AtLoadStr | AtLoadKey | AtRUnlock => true
  | _ => false
  end.

Definition writing (p : point) : bool :=
  match p with
  | AtStoreExpire | AtStoreStr | AtUnlock => true
  | _ => false
  end.

Definition waiting (p : point) : bool :=
  match p with AtLockWait => true | _ => false end.

(** The locals hold what the read section saw or, at the return, what
    the call attaches. *)
Definition observed (p : point) : bool :=
  match p with
  | AtLoadKey | AtRUnlock | AtTest | AtGen | AtReturn | Done => true
  | _ => false
  end.

(** The locals hold the goroutine's own answer from the Token Authority,
    on its way into the credential. *)
Definition minted (p : point) : bool :=
  match p with
  | AtLock | AtLockWait | AtStoreExpire | AtStoreStr | AtUnlock => true
  | _ => false
  end.

(** A goroutine can only be blocked at one of these. *)
Definition at_lock (p : point) : bool :=
  match p with
  | AtRLock | AtLock | AtLockWait => true
  | _ => false
  end.

Definition finished (p : point) : bool :=
  match p with Done => true | _ => false end.

(** Statements a goroutine at [p] has left at most. *)
Definition rank (p : point) : nat :=
  match p with
  | AtRLock => 13 | AtLoadExpire => 12 | AtLoadStr => 11 | AtLoadKey => 10
  | AtRUnlock => 9 | AtTest => 8 | AtGen => 7 | AtLock => 6 | AtLockWait => 5
  | AtStoreExpire => 4 | AtStoreStr => 3 | AtUnlock => 2 | AtReturn => 1
  | Done => 0
  end%nat.

Definition tally (w : point → nat) (fs : list frame) : nat :=
  sum_list_with (λ f, w (pc f)) fs.

Definition count (P : point → bool) : list frame → nat :=
  tally (λ p, if P p then 1%nat else 0%nat).

(** Two goroutines on a zero credential at clock 1000, both past their
    read section before either refreshes, both refreshing in turn. *)
Definition two_refreshers : list label :=
  replicate 5 (0%nat, Internal) ++ replicate 5 (1%nat, Internal)
  ++ [(0%nat, Clock 1000);
      (0%nat, Issued (sampleIssue 1000 "ssgrpcClient" Hour [x41]));
      (0%nat, Internal); (0%nat, Internal); (0%nat, Internal);
      (1%nat, Clock 1001);
      (1%nat, Issued (sampleIssue 1001 "ssgrpcClient" Hour [x41]))]
  ++ replicate 3 (0%nat, Internal) ++ replicate 6 (1%nat, Internal).

#[export] Instance point_eq_dec : EqDecision point.
Proof. solve_decision. Defined.

(** What the locals of a goroutine at each statement are known to hold,
    given the pairs [H] stored so far, the whole pairs [W] so far and the
    credential [c]. *)
Definition frame_ok (H W : list (string * Z)) (c : perRPCCreds) (f : frame)
  : Prop :=
  match pc f with
  | AtRLock | AtLoadExpire => True
  | AtLoadStr => l_exp f = tokenExpire c
  | AtLoadKey | AtRUnlock | AtTest | AtGen | AtReturn => (l_tok f, l_exp f) ∈ H
  | AtLock | AtLockWait | AtStoreExpire => (l_tok f, l_exp f) ∈ W
  | AtStoreStr => (l_tok f, l_exp f) ∈ W ∧ tokenExpire c = l_exp f
  | AtUnlock =>
      (l_tok f, l_exp f) ∈ W ∧ tokenExpire c = l_exp f ∧ tokenStr c = l_tok f
  | Done =>
      (l_tok f, l_exp f) ∈ H
      ∧ match l_result f with
        | Some (meta, None) => meta = bearer (l_tok f)
        | Some (meta, Some _) => meta = ∅
        | None => False
        end
  end.

(** The invariant of all runs: the lock's counters describe where the
    goroutines are, a writer inside excludes readers, outside the exclusive
    section the stored pair is on record, and every pair on record is a
    whole one. *)
Record Inv (H W : list (string * Z)) (s : state) : Prop := mkInv {
  inv_readers : readerCount s = count reading (goroutines s);
  inv_waiting :
    count waiting (goroutines s)
    = match writer s with WriterWaiting => 1%nat | _ => 0%nat end;
  inv_writing :
    count writing (goroutines s)
    = match writer s with WriterHolds => 1%nat | _ => 0%nat end;
  inv_exclusive : writer s = WriterHolds → readerCount s = 0%nat;
  inv_stored :
    writer s ≠ WriterHolds →
    (tokenStr (creds s), tokenExpire (creds s)) ∈ H;
  inv_whole : ∀ p, p ∈ H → p ∈ W;
  inv_frames :
    ∀ i f, goroutines s !! i = Some f → frame_ok H W (creds s) f;
}.

Definition total (s : state) : nat := tally rank (goroutines s).

(** *** What is claimed of every reachable state *)

(** Every call has returned. *)
Definition all_done (s : state) : Prop :=
  ∀ i f, goroutines s !! i = Some f → pc f = Done.

(** Some goroutine can run its next statement. *)
Definition can_step (s : state) : Prop :=
  ∃ l s', step s l = Some s'.

(** A goroutine that has not returned can run unless it stands at an
    acquisition of the lock: no statement panics, nothing else blocks. *)
Definition blocks_only_at_lock (s : state) : Prop :=
  ∀ i f, goroutines s !! i = Some f →
    finished (pc f) = false → at_lock (pc f) = false →
    ∃ a s', step s (i, a) = Some s'.

(** The pair a goroutine holds in its locals after its read section, and
    the one it returns with, is a pair of [H]: with [H] the pairs stored
    along the run, a pair the credential held, both fields at once, in a
    state with no writer inside. *)
Definition untorn (H : list (string * Z)) (s : state) : Prop :=
  ∀ i f, goroutines s !! i = Some f →
    observed (pc f) = true → (l_tok f, l_exp f) ∈ H.

(** A call that has returned gave either an error with the empty map, or
    nil with the bearer entry of the token of a pair of [H]. *)
Definition returns_whole (H : list (string * Z)) (s : state) : Prop :=
  ∀ i f, goroutines s !! i = Some f → pc f = Done →
    (∃ err, l_result f = Some (∅, Some err))
    ∨ (l_result f = Some (bearer (l_tok f), None) ∧ (l_tok f, l_exp f) ∈ H).

(** The pair a goroutine is about to store is a pair of [W]: with [W] the
    whole pairs of the run, the token and expiry of one answer of the Token
    Authority. *)
Definition stores_whole (W : list (string * Z)) (s : state) : Prop :=
  ∀ i f, goroutines s !! i = Some f →
    minted (pc f) = true → (l_tok f, l_exp f) ∈ W.

(** A step that changes the credential is one of the two stores, taken by
    the goroutine that holds the write lock while no goroutine is in a read
    section or a second one in the exclusive section; it leaves
    [sharedKey] alone. *)
Definition mutation_exclusive (s : state) : Prop :=
  ∀ i a s', step s (i, a) = Some s' → creds s' ≠ creds s →
    writer s = WriterHolds
    ∧ readerCount s = 0%nat
    ∧ sharedKey (creds s') = sharedKey (creds s)
    ∧ (∃ f, goroutines s !! i = Some f
            ∧ (pc f = AtStoreExpire ∨ pc f = AtStoreStr))
    ∧ ∀ j g, j ≠ i → goroutines s !! j = Some g →
        reading (pc g) = false ∧ writing (pc g) = false.

End Goroutines.

(** ** Facts about the machine integers *)

Lemma wrap64_id z : int64 z → wrap64 z = z.
Proof.
  unfold int64, min64, max64, wrap64. intros H.
  rewrite Z.mod_small by lia. lia.
Qed.

Lemma sub64_exact a b : int64 (a - b) → sub64 a b = a - b.
Proof. apply wrap64_id. Qed.

(** ** The three paths of [GetRequestMetadata] *)

(** Unfolds a method body down to its outcome. *)
Ltac run_body :=
  unfold GetRequestMetadata, mbind, M_bind, mret, M_ret,
    RLock, RUnlock, Lock, Unlock, log_Err, log_Info, emit,
    load_tokenExpire, load_tokenStr, load_sharedKey,
    store_tokenExpire, store_tokenStr, time_Now_Unix, token_GenUserToken;
  cbn [tokenStr tokenExpire sharedKey app].

Section Paths.
Context {Context : Type} (ctx : Context) (uri : list string).
Variables (E : Env) (c : perRPCCreds).

Lemma path_current :
  ¬ sub64 (tokenExpire c) 300 < now E →
  GetRequestMetadata ctx uri E c
  = (bearer (tokenStr c), None, c, read_section (now E)).
Proof.
  intros H. run_body.
  destruct (Z.ltb_spec (sub64 (tokenExpire c) 300) (now E)); [lia |].
  by rewrite insert_empty.
Qed.

Lemma path_failed e :
  sub64 (tokenExpire c) 300 < now E →
  GenUserToken E "ssgrpcClient" Hour (sharedKey c) = GenErr e →
  GetRequestMetadata ctx uri E c
  = (∅, Some e, c,
     read_section (now E)
     ++ [EvGen "ssgrpcClient" Hour (sharedKey c);
         EvLogErr "gen token error:" e]).
Proof.
  intros H Hg. run_body.
  destruct (Z.ltb_spec (sub64 (tokenExpire c) 300) (now E)); [| lia].
  by rewrite Hg.
Qed.

Lemma path_refreshed u t :
  sub64 (tokenExpire c) 300 < now E →
  GenUserToken E "ssgrpcClient" Hour (sharedKey c) = GenOk u t →
  GetRequestMetadata ctx uri E c
  = (bearer t, None, mkCreds t (EXP u) (sharedKey c),
     read_section (now E)
     ++ [EvGen "ssgrpcClient" Hour (sharedKey c)]
     ++ write_section ++ [EvLogInfo "token refreshed"]).
Proof.
  intros H Hg. run_body.
  destruct (Z.ltb_spec (sub64 (tokenExpire c) 300) (now E)); [| lia].
  rewrite Hg, insert_empty. done.
Qed.

(** Every call takes one of the three paths. *)
Lemma path_cases :
  (¬ sub64 (tokenExpire c) 300 < now E ∧
     GetRequestMetadata ctx uri E c
     = (bearer (tokenStr c), None, c, read_section (now E)))
  ∨ (∃ e, sub64 (tokenExpire c) 300 < now E ∧
     GenUserToken E "ssgrpcClient" Hour (sharedKey c) = GenErr e ∧
     GetRequestMetadata ctx uri E c
     = (∅, Some e, c,
        read_section (now E)
        ++ [EvGen "ssgrpcClient" Hour (sharedKey c);
            EvLogErr "gen token error:" e]))
  ∨ (∃ u t, sub64 (tokenExpire c) 300 < now E ∧
     GenUserToken E "ssgrpcClient" Hour (sharedKey c) = GenOk u t ∧
     GetRequestMetadata ctx uri E c
     = (bearer t, None, mkCreds t (EXP u) (sharedKey c),
        read_section (now E)
        ++ [EvGen "ssgrpcClient" Hour (sharedKey c)]
        ++ write_section ++ [EvLogInfo "token refreshed"])).
Proof.
  destruct (decide (sub64 (tokenExpire c) 300 < now E)) as [H | H].
  - right.
    destruct (GenUserToken E "ssgrpcClient" Hour (sharedKey c)) as [u t | e] eqn:Hg.
    + right. exists u, t. eauto using path_refreshed.
    + left. exists e. eauto using path_failed.
  - left. eauto using path_current.
Qed.
End Paths.

Lemma issues_read_section t : ¬ issues (read_section t).
Proof.
  intros (s & ttl & k & H). unfold read_section in H.
  repeat (apply elem_of_cons in H as [H | H]; [discriminate |]).
  by apply elem_of_nil in H.
Qed.

Lemma issues_gen pre s ttl k post : issues (pre ++ EvGen s ttl k :: post).
Proof. exists s, ttl, k. apply elem_of_app. right. left. Qed.

(** ** The refresh decision *)

(** C1. On every call a token is requested from the Token Authority exactly
    when the stored expiry minus 300, in the method's own [int64]
    subtraction, is strictly below the clock reading; wherever that
    subtraction does not wrap this is the plain inequality
    [tokenExpire - 300 < now]. A credential that a call has just refreshed
    with an expiry one hour after its clock reading makes no request on a
    following call whose clock reading is at most 3300 seconds later, in
    particular not on one at the same reading. *)
Theorem refresh_iff_margin_elapsed {Context : Type} (ctx : Context)
    (uri : list string) (E : Env) (c : perRPCCreds) :
  int64 (tokenExpire c) →
  int64 (now E) →
  let o := GetRequestMetadata ctx uri E c in
  (issues (events o) ↔ sub64 (tokenExpire c) 300 < now E)
  ∧ (min64 + 300 ≤ tokenExpire c →
     (issues (events o) ↔ tokenExpire c - 300 < now E))
  ∧ (∀ u t E',
       issues (events o) →
       GenUserToken E "ssgrpcClient" Hour (sharedKey c) = GenOk u t →
       EXP u = now E + 3600 →
       int64 (EXP u) →
       now E' ≤ now E + 3300 →
       ¬ issues (events (GetRequestMetadata ctx uri E' (stored o)))).
Proof.
  intros Hexp Hnow o.
  assert (Hiff : issues (events o) ↔ sub64 (tokenExpire c) 300 < now E).
  { subst o.
    destruct (path_cases ctx uri E c)
      as [[Hn ->] | [(e & Hd & _ & ->) | (u & t & Hd & _ & ->)]];
      unfold events; cbn [snd].
    - split; [intros Hi; by apply issues_read_section in Hi | done].
    - split; [done | intros _; apply issues_gen].
    - split; [done | intros _; apply issues_gen]. }
  split; [exact Hiff |]. split.
  - intros Hlow. rewrite Hiff, sub64_exact; [done |].
    unfold int64, max64 in *. lia.
  - intros u t E' Hi Hg Hu Hr Hn'. apply Hiff in Hi.
    subst o. rewrite (path_refreshed ctx uri E c u t Hi Hg).
    unfold stored; cbn [fst snd].
    rewrite (path_current ctx uri E'); [apply issues_read_section |].
    cbn [tokenExpire]. rewrite sub64_exact; [lia |].
    unfold int64, min64, max64 in *. lia.
Qed.

Lemma refresh_iff_margin_elapsed_witness :
  let E := sampleEnv 1000 in
  let c := freshCreds [] in
  let o := GetRequestMetadata () [] E c in
  (issues (events o) ↔ sub64 (tokenExpire c) 300 < now E)
  ∧ (min64 + 300 ≤ tokenExpire c →
     (issues (events o) ↔ tokenExpire c - 300 < now E))
  ∧ (∀ u t E',
       issues (events o) →
       GenUserToken E "ssgrpcClient" Hour (sharedKey c) = GenOk u t →
       EXP u = now E + 3600 →
       int64 (EXP u) →
       now E' ≤ now E + 3300 →
       ¬ issues (events (GetRequestMetadata () [] E' (stored o)))).
Proof.
  apply (refresh_iff_margin_elapsed () [] (sampleEnv 1000) (freshCreds []));
    unfold int64, min64, max64; cbn; lia.
Defined.

(** The two situations of C1 on the sample authority: a zero credential at
    clock 1000 is refreshed to expiry 4600, and the next call at the same
    reading requests nothing and returns the same token. *)
Example refresh_then_current :
  let o1 := GetRequestMetadata () [] (sampleEnv 1000) (freshCreds []) in
  let o2 := GetRequestMetadata () [] (sampleEnv 1000) (stored o1) in
  stored o1 = mkCreds "ssgrpcClient.4600" 4600 []
  ∧ events o2 = read_section 1000
  ∧ returned o2 = (bearer "ssgrpcClient.4600", None)
  ∧ stored o2 = stored o1.
Proof.
  cbn zeta.
  rewrite (path_refreshed () [] (sampleEnv 1000) (freshCreds [])
             (mkUser "ssgrpcClient" 4600) "ssgrpcClient.4600")
    by (vm_compute; done).
  cbn [stored events returned fst snd].
  rewrite path_current by (vm_compute; done).
  done.
Qed.

(** Below the range of C1's second part the subtraction wraps: at the least
    [int64] the method's [exp-300] is [2^63 - 300], which no clock reading
    in the example exceeds, and nothing is requested. *)
Example margin_wraps_at_min64 :
  let c := mkCreds "t" min64 [] in
  sub64 (tokenExpire c) 300 = 2 ^ 63 - 300
  ∧ ¬ issues (events (GetRequestMetadata () [] (sampleEnv 0) c)).
Proof.
  cbn zeta. split; [vm_compute; reflexivity |].
  rewrite path_current by (vm_compute; discriminate).
  apply issues_read_section.
Qed.

(** ** Failed issuance *)

(** C3. When a refresh is due and the Token Authority answers the request
    with an error, the call returns exactly that error, and the map it
    returns is the empty one made at the start: it has no "authorization"
    entry, neither a new token nor the stored one. *)
Theorem failed_issuance_returns_error {Context : Type} (ctx : Context)
    (uri : list string) (E : Env) (c : perRPCCreds) (e : error) :
  sub64 (tokenExpire c) 300 < now E →
  GenUserToken E "ssgrpcClient" Hour (sharedKey c) = GenErr e →
  let '(meta, err) := returned (GetRequestMetadata ctx uri E c) in
  err = Some e ∧ meta !! "authorization" = None ∧ meta = ∅.
Proof.
  intros Hd Hg. rewrite (path_failed ctx uri E c e Hd Hg).
  unfold returned; cbn [fst]. by rewrite lookup_empty.
Qed.

Lemma failed_issuance_returns_error_witness :
  let '(meta, err) :=
    returned (GetRequestMetadata () ["peer:30001"] (failingEnv 1000)
                (mkCreds "stale" 1200 [x41])) in
  err = Some (Err "signing failed") ∧ meta !! "authorization" = None ∧ meta = ∅.
Proof.
  apply (failed_issuance_returns_error () ["peer:30001"] (failingEnv 1000)
           (mkCreds "stale" 1200 [x41]) (Err "signing failed"));
    [vm_compute; reflexivity | reflexivity].
Defined.

(** C4. When a refresh is due and the Token Authority answers with an
    error, the credential after the call is the credential before it, field
    by field; the next call starts from the same state, and at any clock
    reading not earlier than this one it asks the Token Authority again. *)
Theorem failed_issuance_keeps_creds {Context : Type} (ctx : Context)
    (uri : list string) (E : Env) (c : perRPCCreds) (e : error) :
  sub64 (tokenExpire c) 300 < now E →
  GenUserToken E "ssgrpcClient" Hour (sharedKey c) = GenErr e →
  let c' := stored (GetRequestMetadata ctx uri E c) in
  tokenStr c' = tokenStr c
  ∧ tokenExpire c' = tokenExpire c
  ∧ sharedKey c' = sharedKey c
  ∧ c' = c
  ∧ (∀ E', GetRequestMetadata ctx uri E' c' = GetRequestMetadata ctx uri E' c)
  ∧ (∀ E', now E ≤ now E' →
           issues (events (GetRequestMetadata ctx uri E' c'))).
Proof.
  intros Hd Hg. rewrite (path_failed ctx uri E c e Hd Hg).
  unfold stored; cbn [fst snd]. split_and!; try done.
  intros E' Hle.
  destruct (path_cases ctx uri E' c)
    as [[Hn _] | [(e' & _ & _ & ->) | (u & t & _ & _ & ->)]];
    [lia | apply issues_gen | apply issues_gen].
Qed.

Lemma failed_issuance_keeps_creds_witness :
  let c := mkCreds "stale" 1200 [x41] in
  let c' := stored (GetRequestMetadata () [] (failingEnv 1000) c) in
  tokenStr c' = tokenStr c
  ∧ tokenExpire c' = tokenExpire c
  ∧ sharedKey c' = sharedKey c
  ∧ c' = c
  ∧ (∀ E', GetRequestMetadata () [] E' c' = GetRequestMetadata () [] E' c)
  ∧ (∀ E', now (failingEnv 1000) ≤ now E' →
           issues (events (GetRequestMetadata () [] E' c'))).
Proof.
  apply (failed_issuance_keeps_creds () [] (failingEnv 1000)
           (mkCreds "stale" 1200 [x41]) (Err "signing failed"));
    [vm_compute; reflexivity | reflexivity].
Defined.

(** ** Successful calls *)

(** C6. Whenever the call returns a nil error, the returned map has under
    "authorization" the string "Bearer " followed by the token string the
    credential holds when the call returns; that entry is the whole map and
    its value is not the empty string. The token is the one the Token
    Authority has just answered with when a refresh was due, and the token
    the credential held otherwise. So the token itself is not empty, and
    the entry is more than the bare prefix, whenever the credential came
    with a token or was due and the Token Authority hands out no empty
    token. *)
Theorem success_attaches_bearer {Context : Type} (ctx : Context)
    (uri : list string) (E : Env) (c : perRPCCreds) :
  let o := GetRequestMetadata ctx uri E c in
  (returned o).2 = None →
  (returned o).1 !! "authorization" = Some ("Bearer " +:+ tokenStr (stored o))
  ∧ (returned o).1 = bearer (tokenStr (stored o))
  ∧ "Bearer " +:+ tokenStr (stored o) ≠ ""
  ∧ (sub64 (tokenExpire c) 300 < now E →
     ∃ u, GenUserToken E "ssgrpcClient" Hour (sharedKey c)
          = GenOk u (tokenStr (stored o)))
  ∧ (¬ sub64 (tokenExpire c) 300 < now E →
     tokenStr (stored o) = tokenStr c)
  ∧ ((tokenStr c ≠ "" ∨ sub64 (tokenExpire c) 300 < now E) →
     (∀ u t, GenUserToken E "ssgrpcClient" Hour (sharedKey c) = GenOk u t →
             t ≠ "") →
     tokenStr (stored o) ≠ ""
     ∧ (returned o).1 !! "authorization" ≠ Some "Bearer ").
Proof.
  intros o Herr. subst o.
  destruct (path_cases ctx uri E c)
    as [[Hn Hp] | [(e & _ & _ & Hp) | (u & t & Hd & Hg & Hp)]];
    rewrite Hp in *; unfold returned, stored in *; cbn [fst snd] in *;
    try discriminate; cbn [tokenStr].
  - split_and!; [apply lookup_singleton_eq | done | done | done | done |].
    intros [Htok | Hd] _; [| done].
    split; [done |]. unfold bearer. rewrite lookup_singleton_eq.
    intros [= Heq]. by destruct (tokenStr c).
  - split_and!; [apply lookup_singleton_eq | done | done | | done |].
    + intros _. by exists u.
    + intros _ Hne. pose proof (Hne u t Hg) as Ht.
      split; [done |]. unfold bearer. rewrite lookup_singleton_eq.
      intros [= Heq]. by destruct t.
Qed.

Lemma success_attaches_bearer_witness :
  let E := sampleEnv 1000 in
  let c := freshCreds [x41] in
  let o := GetRequestMetadata () [] E c in
  ((returned o).1 !! "authorization" = Some ("Bearer " +:+ tokenStr (stored o))
   ∧ (returned o).1 = bearer (tokenStr (stored o))
   ∧ "Bearer " +:+ tokenStr (stored o) ≠ ""
   ∧ (sub64 (tokenExpire c) 300 < now E →
      ∃ u, GenUserToken E "ssgrpcClient" Hour (sharedKey c)
           = GenOk u (tokenStr (stored o)))
   ∧ (¬ sub64 (tokenExpire c) 300 < now E →
      tokenStr (stored o) = tokenStr c)
   ∧ ((tokenStr c ≠ "" ∨ sub64 (tokenExpire c) 300 < now E) →
      (∀ u t, GenUserToken E "ssgrpcClient" Hour (sharedKey c) = GenOk u t →
              t ≠ "") →
      tokenStr (stored o) ≠ ""
      ∧ (returned o).1 !! "authorization" ≠ Some "Bearer "))
  ∧ tokenStr (stored o) ≠ ""
  ∧ (returned o).1 !! "authorization" ≠ Some "Bearer ".
Proof.
  pose proof (success_attaches_bearer () [] (sampleEnv 1000)
                (freshCreds [x41]) eq_refl) as H.
  split; [exact H |].
  apply H.
  - right. reflexivity.
  - intros u t [= _ <-]. discriminate.
Defined.

(** The first call on a zero credential attaches the token it has just
    been issued, not the empty one it found. *)
Example first_call_attaches_issued_token :
  returned (GetRequestMetadata () [] (sampleEnv 1000) (freshCreds [x41]))
  = (bearer "ssgrpcClient.4600", None).
Proof.
  rewrite (path_refreshed () [] (sampleEnv 1000) (freshCreds [x41])
             (mkUser "ssgrpcClient" 4600) "ssgrpcClient.4600")
    by (vm_compute; done).
  reflexivity.
Qed.

(** C7. When stored expiry and clock reading are [int64] values with
    [tokenExpire - 300 >= now], the call returns the stored token under
    "authorization" with a nil error, requests no token, and leaves all
    three fields of the credential as they were. *)
Theorem current_token_is_reused {Context : Type} (ctx : Context)
    (uri : list string) (E : Env) (c : perRPCCreds) :
  int64 (tokenExpire c) →
  int64 (now E) →
  tokenExpire c - 300 >= now E →
  let o := GetRequestMetadata ctx uri E c in
  returned o = (bearer (tokenStr c), None)
  ∧ stored o = c
  ∧ ¬ issues (events o)
  ∧ filter is_store (events o) = [].
Proof.
  intros Hexp Hnow Hge.
  rewrite (path_current ctx uri E c).
  - unfold returned, stored, events; cbn [fst snd].
    split_and!; [done | done | apply issues_read_section | done].
  - rewrite sub64_exact; [lia |]. unfold int64, min64, max64 in *. lia.
Qed.

Lemma current_token_is_reused_witness :
  let c := mkCreds "ssgrpcClient.4600" 4600 [x41] in
  let o := GetRequestMetadata () [] (failingEnv 4300) c in
  returned o = (bearer (tokenStr c), None)
  ∧ stored o = c
  ∧ ¬ issues (events o)
  ∧ filter is_store (events o) = [].
Proof.
  apply (current_token_is_reused () [] (failingEnv 4300)
           (mkCreds "ssgrpcClient.4600" 4600 [x41]));
    unfold int64, min64, max64; cbn; lia.
Defined.

(** C8. [RequireTransportSecurity] answers true for every credential. *)
Theorem RequireTransportSecurity_true (c : perRPCCreds) :
  RequireTransportSecurity c = true.
Proof. reflexivity. Qed.

(** ** What a call writes *)

(** Splits membership in a literal list of events into its cases. *)
Ltac event_cases H :=
  unfold read_section, write_section in H; cbn [app] in H;
  rewrite !elem_of_cons, elem_of_nil in H;
  repeat (destruct H as [H | H]); try discriminate H; try contradiction.

Lemma stores_of_refresh t key :
  ∀ f, EvStore f ∈ read_section t ++ [EvGen "ssgrpcClient" Hour key]
                     ++ write_section ++ [EvLogInfo "token refreshed"] →
       f = FtokenStr ∨ f = FtokenExpire.
Proof.
  intros f H. event_cases H; injection H as <-; auto.
Qed.

(** C9. On each of its paths the call leaves [sharedKey] as it was; every
    store it performs is to [tokenStr] or to [tokenExpire]. *)
Theorem sharedKey_never_written {Context : Type} (ctx : Context)
    (uri : list string) (E : Env) (c : perRPCCreds) :
  let o := GetRequestMetadata ctx uri E c in
  sharedKey (stored o) = sharedKey c
  ∧ ¬ (EvStore FsharedKey ∈ events o)
  ∧ ∀ f, EvStore f ∈ events o → f = FtokenStr ∨ f = FtokenExpire.
Proof.
  intros o.
  assert (Hst : ∀ f, EvStore f ∈ events o → f = FtokenStr ∨ f = FtokenExpire).
  { subst o. intros f.
    destruct (path_cases ctx uri E c)
      as [[_ ->] | [(e & _ & _ & ->) | (u & t & _ & _ & ->)]];
      unfold events; cbn [snd]; intros H.
    - event_cases H.
    - event_cases H.
    - by apply stores_of_refresh in H. }
  split_and!; [| | exact Hst].
  - subst o.
    destruct (path_cases ctx uri E c)
      as [[_ ->] | [(e & _ & _ & ->) | (u & t & _ & _ & ->)]]; done.
  - intros Hin. by destruct (Hst _ Hin).
Qed.

(** C10. Every request the call makes to the Token Authority names the
    subject "ssgrpcClient" and the time-to-live [time.Hour], 3600 seconds in
    nanoseconds, and signs with the stored key; the outcome of the call is
    the same for every context and every list of URIs. *)
Theorem issuance_fixed_subject_and_ttl {Context : Type} (ctx : Context)
    (uri : list string) (E : Env) (c : perRPCCreds) :
  let o := GetRequestMetadata ctx uri E c in
  (∀ subject ttl key,
     EvGen subject ttl key ∈ events o →
     subject = "ssgrpcClient" ∧ ttl = Hour ∧ ttl = 3600 * 10 ^ 9
     ∧ key = sharedKey c)
  ∧ (∀ (Context' : Type) (ctx' : Context') (uri' : list string),
       GetRequestMetadata ctx' uri' E c = o).
Proof.
  intros o. split.
  - subst o. intros s ttl k.
    destruct (path_cases ctx uri E c)
      as [[_ ->] | [(e & _ & _ & ->) | (u & t & _ & _ & ->)]];
      unfold events; cbn [snd]; intros H; event_cases H;
      injection H as -> -> ->; done.
  - done.
Qed.

(** ** Token string and expiry travel together *)

(** C5. A call either stores nothing and leaves the credential as it was,
    or stores both fields inside one exclusive section, [tokenStr] from
    the token and [tokenExpire] from the [EXP] of one and the same answer
    of the Token Authority, and stores nothing outside that section.
    Hence, with an authority whose token encodes the expiry it reports, a
    credential on which the two fields agree still has them agree after
    the call, and after any call that refreshed they agree whatever the
    credential was before. *)
Theorem token_and_expiry_written_together (encodes : string → Z → Prop)
    {Context : Type} (ctx : Context) (uri : list string) (E : Env)
    (c : perRPCCreds) :
  authority_agrees encodes E →
  let o := GetRequestMetadata ctx uri E c in
  ((stored o = c ∧ filter is_store (events o) = [])
   ∨ (∃ u t pre post,
        GenUserToken E "ssgrpcClient" Hour (sharedKey c) = GenOk u t
        ∧ tokenStr (stored o) = t
        ∧ tokenExpire (stored o) = EXP u
        ∧ events o = pre ++ write_section ++ post
        ∧ filter is_store pre = []
        ∧ filter is_store post = []))
  ∧ (agrees encodes c → agrees encodes (stored o))
  ∧ (issues (events o) → (returned o).2 = None → agrees encodes (stored o)).
Proof.
  intros Hauth o. subst o.
  destruct (path_cases ctx uri E c)
    as [[_ ->] | [(e & _ & _ & ->) | (u & t & _ & Hg & ->)]];
    unfold stored, events, returned; cbn [fst snd].
  - split_and!; [by left | done |].
    intros Hi. by apply issues_read_section in Hi.
  - split_and!; [by left | done | done].
  - pose proof (Hauth _ _ _ _ _ Hg) as Henc.
    split_and!; [right | done | done].
    exists u, t, (read_section (now E) ++ [EvGen "ssgrpcClient" Hour (sharedKey c)]),
      [EvLogInfo "token refreshed"].
    by rewrite <- app_assoc.
Qed.

Lemma token_and_expiry_written_together_witness :
  let E := sampleEnv 1000 in
  let c := freshCreds [x41] in
  let o := GetRequestMetadata () [] E c in
  ((stored o = c ∧ filter is_store (events o) = [])
   ∨ (∃ u t pre post,
        GenUserToken E "ssgrpcClient" Hour (sharedKey c) = GenOk u t
        ∧ tokenStr (stored o) = t
        ∧ tokenExpire (stored o) = EXP u
        ∧ events o = pre ++ write_section ++ post
        ∧ filter is_store pre = []
        ∧ filter is_store post = []))
  ∧ (agrees sampleEncodes c → agrees sampleEncodes (stored o))
  ∧ (issues (events o) → (returned o).2 = None →
     agrees sampleEncodes (stored o)).
Proof.
  apply (token_and_expiry_written_together sampleEncodes () []
           (sampleEnv 1000) (freshCreds [x41])).
  intros subject ttl key u t Hg. injection Hg as <- <-.
  by exists subject.
Defined.

(** ** Runs of the goroutines *)

Module GoroutineProofs.
Import Goroutines.

Local Open Scope nat_scope.

Lemma tally_insert (w : point → nat) (fs : list frame) i f f' :
  fs !! i = Some f →
  tally w (<[i := f']> fs) + w (pc f) = tally w fs + w (pc f').
Proof.
  unfold tally. revert i. induction fs as [| g fs IH]; intros [| i] H;
    try discriminate; simpl in *.
  - injection H as ->. lia.
  - specialize (IH _ H). lia.
Qed.

Lemma tally_lookup (w : point → nat) (fs : list frame) i f :
  fs !! i = Some f → w (pc f) ≤ tally w fs.
Proof.
  unfold tally. revert i. induction fs as [| g fs IH]; intros [| i] H;
    try discriminate; simpl in *.
  - injection H as ->. lia.
  - specialize (IH _ H). lia.
Qed.

Lemma count_insert P (fs : list frame) i f f' :
  fs !! i = Some f →
  count P (<[i := f']> fs) + (if P (pc f) then 1 else 0)
  = count P fs + (if P (pc f') then 1 else 0).
Proof. apply (tally_insert (λ p, if P p then 1 else 0)). Qed.

Lemma count_lookup P (fs : list frame) i f :
  fs !! i = Some f → P (pc f) = true → 1 ≤ count P fs.
Proof.
  intros H HP. pose proof (tally_lookup (λ p, if P p then 1 else 0) fs i f H) as Hle.
  cbn in Hle. rewrite HP in Hle. exact Hle.
Qed.

Lemma count_lookup2 P (fs : list frame) i j f g :
  i ≠ j → fs !! i = Some f → fs !! j = Some g →
  P (pc f) = true → P (pc g) = true → 2 ≤ count P fs.
Proof.
  intros Hij Hi Hj Hf Hg. revert i j Hij Hi Hj.
  induction fs as [| h fs IH]; intros [| i] [| j] Hij Hi Hj;
    try discriminate; try done; simpl in Hi, Hj.
  - injection Hi as ->. pose proof (count_lookup P fs j g Hj Hg) as Hle.
    unfold count, tally in *. simpl. rewrite Hf. lia.
  - injection Hj as ->. pose proof (count_lookup P fs i f Hi Hf) as Hle.
    unfold count, tally in *. simpl. rewrite Hg. lia.
  - assert (i ≠ j) as Hne by congruence.
    specialize (IH i j Hne Hi Hj).
    unfold count, tally in *. simpl. lia.
Qed.

Lemma count_pos P (fs : list frame) :
  0 < count P fs → ∃ i f, fs !! i = Some f ∧ P (pc f) = true.
Proof.
  unfold count, tally. induction fs as [| g fs IH]; cbn; [lia |].
  destruct (P (pc g)) eqn:Hg.
  - intros _. by exists 0, g.
  - intros H. destruct IH as (i & f & Hi & Hf); [lia |]. by exists (S i), f.
Qed.

Lemma count_zero P (fs : list frame) i f :
  count P fs = 0 → fs !! i = Some f → P (pc f) = false.
Proof.
  intros H0 Hi. destruct (P (pc f)) eqn:HP; [| done].
  pose proof (count_lookup P fs i f Hi HP). lia.
Qed.

Lemma count_lookup_le (P : point → bool) (fs : list frame) i f :
  fs !! i = Some f → (if P (pc f) then 1 else 0) ≤ count P fs.
Proof. apply (tally_lookup (λ p, if P p then 1 else 0)). Qed.

Lemma frame_ok_mono H W X Y c f :
  frame_ok H W c f → frame_ok (H ++ X) (W ++ Y) c f.
Proof.
  unfold frame_ok. destruct (pc f); try done;
    rewrite elem_of_app; tauto.
Qed.

Lemma frame_ok_creds H W c c' f :
  reading (pc f) = false → writing (pc f) = false →
  frame_ok H W c f → frame_ok H W c' f.
Proof. unfold frame_ok. by destruct (pc f). Qed.

Lemma holder_excludes H W s i f :
  Inv H W s → goroutines s !! i = Some f → writing (pc f) = true →
  writer s = WriterHolds
  ∧ readerCount s = 0
  ∧ ∀ j g, j ≠ i → goroutines s !! j = Some g →
      reading (pc g) = false ∧ writing (pc g) = false.
Proof.
  intros [Hr Hw Hx He Hst Hwh Hfr] Hf Hwf.
  pose proof (count_lookup writing _ _ _ Hf Hwf) as Hc.
  assert (Hh : writer s = WriterHolds) by (destruct (writer s); [lia | lia | done]).
  split_and!; [done | by apply He |].
  intros j g Hne Hj. split.
  - apply (count_zero reading (goroutines s) j); [| done].
    rewrite <- Hr. by apply He.
  - destruct (writing (pc g)) eqn:Hwg; [| done].
    assert (i ≠ j) as Hne' by congruence.
    pose proof (count_lookup2 writing _ _ _ _ _ Hne' Hf Hj Hwf Hwg).
    rewrite Hh in Hx. lia.
Qed.


Ltac pose_counts i Hf :=
  match goal with
  | |- context [<[i := ?f']> _] =>
      let H1 := fresh "Hn" in
      let H2 := fresh "Hn" in
      let H3 := fresh "Hn" in
      pose proof (count_insert reading _ i _ f' Hf) as H1;
      pose proof (count_insert waiting _ i _ f' Hf) as H2;
      pose proof (count_insert writing _ i _ f' Hf) as H3;
      simpl in H1, H2, H3
  end.

Lemma step_inv H W s l s' :
  Inv H W s → step s l = Some s' →
  Inv (H ++ quiescent s') (W ++ issued_pair l) s'.
Proof.
  intros [Hr Hw Hx He Hst Hwh Hfr] Hs. destruct l as [i a]. unfold step in Hs.
  destruct (goroutines s !! i) as [f |] eqn:Hf; [| discriminate]. simpl in Hs.
  pose proof (Hfr i f Hf) as Hok.
  pose proof (count_lookup_le reading _ _ _ Hf) as Hc1.
  pose proof (count_lookup_le waiting _ _ _ Hf) as Hc2.
  pose proof (count_lookup_le writing _ _ _ Hf) as Hc3.
  assert (Hothers : ∀ j g, i ≠ j → goroutines s !! j = Some g →
            writing (pc f) = true →
            reading (pc g) = false ∧ writing (pc g) = false).
  { intros j g Hne Hj Hwf. split.
    - apply (count_zero reading (goroutines s) j); [| done].
      rewrite <- Hr. apply He. rewrite Hwf in Hc3.
      destruct (writer s); [lia | lia | done].
    - destruct (writing (pc g)) eqn:Hwg; [| done].
      pose proof (count_lookup2 writing _ _ _ _ _ Hne Hf Hj Hwf Hwg).
      destruct (writer s); lia. }
  unfold frame_ok in Hok.
  destruct f as [p e t k r]; simpl in *.
  destruct p, a as [| now | [u t' | err]]; try discriminate; simpl in *;
    destruct (writer s) eqn:Hwr; try discriminate;
    try specialize (He eq_refl); try lia;
    try (destruct (readerCount s) eqn:Hrc; try discriminate; try lia);
    try (destruct (sub64 e 300 <? now)%Z);
    injection Hs as <-; unfold set_frame, quiescent; pose_counts i Hf;
    (split; simpl; rewrite ?Hwr, ?Hrc;
     [lia | lia | lia | try done; try lia | | | ]).
  all: try (intros _; rewrite elem_of_app; right; by left).
  all: try (intros q Hq; rewrite elem_of_app; left;
            apply elem_of_app in Hq as [Hq | Hq]; [by apply Hwh |];
            try (by apply elem_of_nil in Hq);
            apply list_elem_of_singleton in Hq as ->;
            first [ apply Hwh; by apply Hst
                  | by destruct Hok as (Hin & -> & ->) ]).
  all: try (intros j g Hj;
      apply list_lookup_insert_Some in Hj as [(-> & <- & _) | (Hne & Hj)];
      [ unfold frame_ok; simpl; rewrite ?elem_of_app, ?list_elem_of_singleton;
        try done; try tauto
      | apply frame_ok_mono; try (by apply Hfr with j) ]).
  all: try done.
  all: try (by right).
  all: try (destruct (Hothers j g Hne Hj eq_refl) as [Hrd Hwt];
            apply frame_ok_creds with (creds s); [done | done |];
            by apply Hfr with j).
  - right. by subst e.
  - right. by subst e.
  - right. by destruct Hok as (Hin & -> & ->).
Qed.

Lemma run_inv H W s tr s' :
  Inv H W s → run s tr = Some s' →
  Inv (H ++ stored_after s tr) (W ++ (tr ≫= issued_pair)) s'.
Proof.
  revert H W s. induction tr as [| l tr IH]; intros H W s HI Hrun;
    simpl in Hrun.
  - injection Hrun as <-. simpl. by rewrite !app_nil_r.
  - simpl stored_after.
    destruct (step s l) as [s1 |] eqn:Hs; [| discriminate]. simpl in Hrun.
    change ((l :: tr) ≫= issued_pair)
      with (issued_pair l ++ (tr ≫= issued_pair)).
    rewrite !app_assoc. eapply IH; [| done]. by eapply step_inv.
Qed.

Lemma count_replicate_entry P n :
  count P (replicate n entry) = (if P AtRLock then n else 0).
Proof.
  unfold count, tally. induction n as [| n IH]; simpl.
  - by destruct (P AtRLock).
  - rewrite IH. by destruct (P AtRLock).
Qed.

Lemma init_inv c n :
  Inv (quiescent (init c n)) [(tokenStr c, tokenExpire c)] (init c n).
Proof.
  split; simpl; rewrite ?count_replicate_entry; try done.
  - intros _. apply list_elem_of_singleton. done.
  - intros i f Hi. apply lookup_replicate in Hi as [-> _]. done.
Qed.

Lemma reachable_inv c n tr s :
  run (init c n) tr = Some s →
  Inv (stored_along (init c n) tr) (whole_pairs c tr) s.
Proof. intros Hrun. apply (run_inv _ _ _ _ _ (init_inv c n) Hrun). Qed.

Lemma step_total s l s' : step s l = Some s' → total s' < total s.
Proof.
  intros Hs. destruct l as [i a]. unfold step in Hs.
  destruct (goroutines s !! i) as [f |] eqn:Hf; [| discriminate]. simpl in Hs.
  assert (Hdec : ∀ f', rank (pc f') < rank (pc f) →
            tally rank (<[i := f']> (goroutines s)) < total s).
  { intros f' Hlt. pose proof (tally_insert rank _ i f f' Hf). unfold total. lia. }
  destruct f as [p e t k r]; simpl in *.
  destruct p, a as [| now | [u t' | err]]; try discriminate;
    try (destruct (writer s); try discriminate);
    try (destruct (readerCount s); try discriminate);
    try (destruct (sub64 e 300 <? now)%Z);
    injection Hs as <-; unfold total at 1; simpl; apply Hdec; simpl; lia.
Qed.

Lemma run_total s tr s' : run s tr = Some s' → total s' + length tr ≤ total s.
Proof.
  revert s. induction tr as [| l tr IH]; intros s Hrun; simpl in Hrun.
  - injection Hrun as <-. simpl. lia.
  - destruct (step s l) as [s1 |] eqn:Hs; [| discriminate]. simpl in Hrun.
    apply IH in Hrun. apply step_total in Hs. simpl. lia.
Qed.

Lemma total_init c n : total (init c n) = 13 * n.
Proof.
  unfold total, tally. simpl. induction n as [| n IH]; simpl; [done |].
  rewrite IH. lia.
Qed.

Lemma inv_blocks_only_at_lock H W s : Inv H W s → blocks_only_at_lock s.
Proof.
  intros HI i f Hf Hfin Hlock.
  pose proof (inv_readers _ _ _ HI) as Hr.
  unfold step. rewrite Hf. simpl.
  destruct (pc f) eqn:Hpc; try discriminate.
  - by eexists Internal, _.
  - by eexists Internal, _.
  - by eexists Internal, _.
  - assert (1 ≤ count reading (goroutines s)) as Hc
      by (apply (count_lookup reading _ i f Hf); by rewrite Hpc).
    destruct (readerCount s) as [| r]; [lia |]. by eexists Internal, _.
  - exists (Clock 0). destruct (sub64 (l_exp f) 300 <? 0)%Z; by eexists.
  - by eexists (Issued (GenErr (Err "signing failed"))), _.
  - by eexists Internal, _.
  - by eexists Internal, _.
  - destruct (holder_excludes H W s i f HI Hf) as (-> & _); [by rewrite Hpc |].
    by eexists Internal, _.
  - by eexists Internal, _.
Qed.

Lemma all_done_or_not (fs : list frame) :
  (∀ i f, fs !! i = Some f → pc f = Done)
  ∨ ∃ i f, fs !! i = Some f ∧ finished (pc f) = false.
Proof.
  induction fs as [| g fs [IH | (i & f & Hi & Hf)]].
  - left. by intros [| i] f.
  - destruct (finished (pc g)) eqn:Hg.
    + left. intros [| i] f Hi; simpl in Hi.
      * injection Hi as <-. by destruct (pc g).
      * by apply IH with i.
    + right. by exists 0, g.
  - right. by exists (S i), f.
Qed.

Lemma inv_progress H W s : Inv H W s → all_done s ∨ can_step s.
Proof.
  intros HI. pose proof (inv_blocks_only_at_lock H W s HI) as Hfree.
  destruct HI as [Hr Hw Hx He Hst Hwh Hfr].
  destruct (writer s) eqn:Hwr.
  - destruct (all_done_or_not (goroutines s)) as [Hall | (i & f & Hi & Hf)];
      [by left | right].
    destruct (at_lock (pc f)) eqn:Hl.
    + assert (waiting (pc f) = false) as Hnw
        by (by apply (count_zero waiting (goroutines s) i)).
      exists (i, Internal). unfold step. rewrite Hi, Hwr. simpl.
      destruct (pc f); try discriminate; by eexists.
    + destruct (Hfree i f Hi Hf Hl) as (a & s' & Hs). by exists (i, a), s'.
  - right. destruct (readerCount s) as [| r] eqn:Hrc.
    + destruct (count_pos waiting (goroutines s)) as (i & f & Hi & Hf); [lia |].
      exists (i, Internal). unfold step. rewrite Hi, Hwr, Hrc. simpl.
      destruct (pc f); try discriminate; by eexists.
    + destruct (count_pos reading (goroutines s)) as (i & f & Hi & Hf); [lia |].
      destruct (Hfree i f Hi) as (a & s' & Hs);
        [by destruct (pc f) | by destruct (pc f) |].
      by exists (i, a), s'.
  - right.
    destruct (count_pos writing (goroutines s)) as (i & f & Hi & Hf); [lia |].
    destruct (Hfree i f Hi) as (a & s' & Hs);
      [by destruct (pc f) | by destruct (pc f) |].
    by exists (i, a), s'.
Qed.

Lemma inv_mutation_exclusive H W s : Inv H W s → mutation_exclusive s.
Proof.
  intros HI i a s' Hs Hne. unfold step in Hs.
  destruct (goroutines s !! i) as [f |] eqn:Hf; [| discriminate]. simpl in Hs.
  assert (Hsec : writing (pc f) = true →
            writer s = WriterHolds ∧ readerCount s = 0
            ∧ ∀ j g, j ≠ i → goroutines s !! j = Some g →
                reading (pc g) = false ∧ writing (pc g) = false)
    by apply (holder_excludes H W s i f HI Hf).
  destruct (pc f) eqn:Hpc, a as [| now | [u t' | err]]; try discriminate;
    try (destruct (writer s) eqn:Hwr; try discriminate);
    try (destruct (readerCount s) eqn:Hrc; try discriminate);
    try (destruct (sub64 (l_exp f) 300 <? now)%Z);
    injection Hs as <-; simpl in Hne; try done;
    destruct (Hsec eq_refl) as (Hh & Hz & Hoth); try discriminate;
    (split_and!; [done | done | done | | done]);
    exists f; rewrite Hpc; auto.
Qed.

Lemma inv_untorn H W s : Inv H W s → untorn H s.
Proof.
  intros HI i f Hf Hobs. pose proof (inv_frames _ _ _ HI i f Hf) as Hok.
  unfold frame_ok in Hok. destruct (pc f); try discriminate; tauto.
Qed.

Lemma inv_stores_whole H W s : Inv H W s → stores_whole W s.
Proof.
  intros HI i f Hf Hobs. pose proof (inv_frames _ _ _ HI i f Hf) as Hok.
  unfold frame_ok in Hok. destruct (pc f); try discriminate; tauto.
Qed.

Lemma inv_returns_whole H W s : Inv H W s → returns_whole H s.
Proof.
  intros HI i f Hf Hpc. pose proof (inv_frames _ _ _ HI i f Hf) as Hok.
  unfold frame_ok in Hok. rewrite Hpc in Hok. destruct Hok as [Hin Hres].
  destruct (l_result f) as [[meta [err |]] |]; [| | done]; subst meta.
  - left. by exists err.
  - by right.
Qed.

Lemma inv_completes H W s :
  Inv H W s → ∃ tr s', run s tr = Some s' ∧ all_done s'.
Proof.
  remember (total s) as k eqn:Hk. revert H W s Hk.
  induction k as [k IH] using lt_wf_ind. intros H W s -> HI.
  destruct (inv_progress H W s HI) as [Hdone | (l & s1 & Hs)].
  - by exists [], s.
  - destruct (IH (total s1) (step_total _ _ _ Hs) (H ++ quiescent s1)
                (W ++ issued_pair l) s1 eq_refl)
      as (tr & s' & Hrun & Hdone); [by eapply step_inv |].
    exists (l :: tr), s'. simpl. by rewrite Hs.
Qed.

(** C2. In every state that goroutines calling [GetRequestMetadata] on one
    credential can reach, under any interleaving, clock and Token Authority:
    the run so far has at most 13 statements per call, the state has all
    calls returned or some goroutine able to run, a goroutine is held up
    only at an acquisition of the lock, and the run can be continued until
    every call has returned. The (token string, expiry) pair in the locals
    of a goroutine past its read section, and the pair behind every bearer
    entry returned, is a pair the credential held, both fields at once, in
    some state of the run with no writer inside; each such pair is the one
    the credential started with or the token and expiry of one answer of
    the Token Authority, as is every pair on its way into the credential.
    A step that changes the credential is a store by the one goroutine
    holding the write lock, with no reader inside. *)
Theorem concurrent_calls_complete_untorn (c0 : perRPCCreds) (n : nat)
    (tr : list label) (s : state) :
  run (init c0 n) tr = Some s →
  length tr ≤ 13 * n
  ∧ (all_done s ∨ can_step s)
  ∧ blocks_only_at_lock s
  ∧ (∃ tr' s', run s tr' = Some s' ∧ all_done s')
  ∧ untorn (stored_along (init c0 n) tr) s
  ∧ returns_whole (stored_along (init c0 n) tr) s
  ∧ (∀ p, p ∈ stored_along (init c0 n) tr → p ∈ whole_pairs c0 tr)
  ∧ stores_whole (whole_pairs c0 tr) s
  ∧ mutation_exclusive s.
Proof.
  intros Hrun. pose proof (reachable_inv c0 n tr s Hrun) as HI.
  split_and!.
  - pose proof (run_total _ _ _ Hrun) as Hle. rewrite total_init in Hle. lia.
  - by eapply inv_progress.
  - by eapply inv_blocks_only_at_lock.
  - by eapply inv_completes.
  - by eapply inv_untorn.
  - by eapply inv_returns_whole.
  - apply (inv_whole _ _ _ HI).
  - by eapply inv_stores_whole.
  - by eapply inv_mutation_exclusive.
Qed.

Lemma concurrent_calls_complete_untorn_witness :
  let c0 := freshCreds [x41] in
  ∃ s, run (init c0 2) two_refreshers = Some s
  ∧ length two_refreshers ≤ 13 * 2
  ∧ (all_done s ∨ can_step s)
  ∧ blocks_only_at_lock s
  ∧ (∃ tr' s', run s tr' = Some s' ∧ all_done s')
  ∧ untorn (stored_along (init c0 2) two_refreshers) s
  ∧ returns_whole (stored_along (init c0 2) two_refreshers) s
  ∧ (∀ p, p ∈ stored_along (init c0 2) two_refreshers →
          p ∈ whole_pairs c0 two_refreshers)
  ∧ stores_whole (whole_pairs c0 two_refreshers) s
  ∧ mutation_exclusive s.
Proof.
  eexists. split; [vm_compute; reflexivity |].
  apply (concurrent_calls_complete_untorn (freshCreds [x41]) 2 two_refreshers).
  vm_compute. reflexivity.
Defined.

(** The run of the worked example: both calls return, the first with the
    token it minted, the second with its own, which is the one left in the
    credential; the pairs stored along the way are the zero pair and the
    two minted ones. *)
Example two_refreshers_outcome :
  ∃ s, run (init (freshCreds [x41]) 2) two_refreshers = Some s
       ∧ l_result <$> goroutines s
         = [Some (bearer "ssgrpcClient.4600", None);
            Some (bearer "ssgrpcClient.4601", None)]
       ∧ creds s = mkCreds "ssgrpcClient.4601" 4601 [x41]
       ∧ remove_dups (stored_along (init (freshCreds [x41]) 2) two_refreshers)
         = [("", 0%Z); ("ssgrpcClient.4600", 4600%Z);
            ("ssgrpcClient.4601", 4601%Z)].
Proof.
  eexists. split; [vm_compute; reflexivity |].
  split_and!; [vm_compute; reflexivity | done | vm_compute; reflexivity].
Qed.

(** While goroutine 1 is inside its read section, goroutine 0 has announced
    itself as writer but cannot enter. *)
Example reader_keeps_writer_out :
  let tr := [(0, Internal); (1, Internal)] ++ replicate 4 (0, Internal)
            ++ [(0, Clock 1000); (0, Issued (sampleIssue 1000 "ssgrpcClient" Hour []));
                (0, Internal)] in
  ∃ s, run (init (freshCreds []) 2) tr = Some s
       ∧ writer s = WriterWaiting
       ∧ step s (0, Internal) = None
       ∧ step s (2, Internal) = None
       ∧ is_Some (step s (1, Internal)).
Proof.
  eexists. split; [vm_compute; reflexivity |].
  split_and!; [done | done | done |]. vm_compute. by eexists.
Qed.

End GoroutineProofs.

(** * Further properties of the credential provider *)

(** ** Lock discipline of one call *)

(** What the caller holds of [c.l]. *)
Inductive held : Type := Free | ReadHeld | WriteHeld.

(** The discipline an event must respect: a lock is taken only when none
    is held and released only by its holder; fields are loaded under the
    read lock only and stored under the write lock only; the clock, the
    Token Authority and the log are reached with no lock held. *)
Definition lock_after (h : held) (e : event) : option held :=
  match e, h with
  | EvRLock, Free => Some ReadHeld
  | EvRUnlock, ReadHeld => Some Free
  | EvLock, Free => Some WriteHeld
  | EvUnlock, WriteHeld => Some Free
  | EvLoad _, ReadHeld => Some ReadHeld
  | EvStore _, WriteHeld => Some WriteHeld
  | EvNow _, Free => Some Free
  | EvGen _ _ _, Free => Some Free
  | EvLogErr _ _, Free => Some Free
  | EvLogInfo _, Free => Some Free
  | _, _ => None
  end.

Fixpoint discipline (h : held) (tr : list event) : option held :=
  match tr with
  | [] => Some h
  | e :: tr' => h' ← lock_after h e ; discipline h' tr'
  end.

(** What the discipline refuses: a load under the write lock, a store
    under the read lock, a request to the Token Authority made while a
    lock is held, a return with a lock still held. *)
Example discipline_refuses :
  discipline Free [EvLock; EvLoad FtokenStr; EvStore FtokenStr; EvUnlock] = None
  ∧ discipline Free [EvRLock; EvStore FtokenStr; EvRUnlock] = None
  ∧ discipline Free [EvRLock; EvGen "ssgrpcClient" Hour []; EvRUnlock] = None
  ∧ discipline Free [EvRLock; EvLoad FtokenStr] = Some ReadHeld.
Proof. done. Qed.

(** X1. The events of every call, on each of its three paths, respect the
    lock discipline: fields are loaded only under the read lock and stored
    only under the write lock, the read lock is released before the write
    lock is asked for, the clock, the Token Authority and the log are
    reached with no lock held, and no lock is held when the call returns,
    also when it returns the error. *)
Theorem call_respects_lock_discipline {Context : Type} (ctx : Context)
    (uri : list string) (E : Env) (c : perRPCCreds) :
  discipline Free (events (GetRequestMetadata ctx uri E c)) = Some Free.
Proof.
  destruct (path_cases ctx uri E c)
    as [[_ ->] | [(e & _ & _ & ->) | (u & t & _ & _ & ->)]]; reflexivity.
Qed.

(** X2. A call returns an error exactly when a refresh is due and the
    Token Authority answers the request with an error, and the error it
    returns is that one: no other failure comes out of the method. *)
Theorem error_only_from_authority {Context : Type} (ctx : Context)
    (uri : list string) (E : Env) (c : perRPCCreds) (e : error) :
  (returned (GetRequestMetadata ctx uri E c)).2 = Some e
  ↔ sub64 (tokenExpire c) 300 < now E
    ∧ GenUserToken E "ssgrpcClient" Hour (sharedKey c) = GenErr e.
Proof.
  destruct (path_cases ctx uri E c)
    as [[Hn ->] | [(e' & Hd & Hg & ->) | (u & t & Hd & Hg & ->)]];
    unfold returned; cbn [fst snd]; split.
  - discriminate.
  - intros [Hd _]. contradiction.
  - intros [= ->]. done.
  - intros [_ Hg']. congruence.
  - discriminate.
  - intros [_ Hg']. congruence.
Qed.

(** X3. With an authority whose new token expires at least 300 seconds
    after the clock reading, a call that returned nil leaves a credential
    on which the same call at the same reading does nothing but read: it
    returns the same map, stores nothing and requests nothing. *)
Theorem repeated_call_is_noop {Context : Type} (ctx : Context)
    (uri : list string) (E : Env) (c : perRPCCreds) :
  int64 (now E) →
  (∀ u t, GenUserToken E "ssgrpcClient" Hour (sharedKey c) = GenOk u t →
          int64 (EXP u) ∧ now E + 300 ≤ EXP u) →
  let o := GetRequestMetadata ctx uri E c in
  (returned o).2 = None →
  GetRequestMetadata ctx uri E (stored o)
  = (returned o, stored o, read_section (now E)).
Proof.
  intros Hnow Hauth o Hok. subst o.
  destruct (path_cases ctx uri E c)
    as [[Hn Hp] | [(e' & Hd & Hg & Hp) | (u & t & Hd & Hg & Hp)]];
    rewrite Hp in *; unfold returned, stored in *; cbn [fst snd] in *.
  - by rewrite path_current.
  - discriminate.
  - destruct (Hauth u t Hg) as [Hr Hm].
    rewrite path_current; [done |]. cbn [tokenExpire].
    rewrite sub64_exact; [lia |]. unfold int64, min64, max64 in *. lia.
Qed.

Lemma repeated_call_is_noop_witness :
  let E := sampleEnv 1000 in
  let o := GetRequestMetadata () [] E (freshCreds [x41]) in
  GetRequestMetadata () [] E (stored o)
  = (returned o, stored o, read_section (now E)).
Proof.
  apply (repeated_call_is_noop () [] (sampleEnv 1000) (freshCreds [x41])).
  - unfold int64, min64, max64. cbn. lia.
  - intros u t [= <- <-]. vm_compute. split; [split |]; discriminate.
  - vm_compute. reflexivity.
Defined.

(** ** Calls one after the other *)

(** The calls of one caller in sequence, each with its own context, URIs,
    clock reading and answers of the Token Authority: the results in order,
    the credential left behind, the events of all calls. *)
Fixpoint calls {Context : Type} (reqs : list (Context * list string * Env))
    (c : perRPCCreds)
  : list (gmap string string * option error) * perRPCCreds * list event :=
  match reqs with
  | [] => ([], c, [])
  | (ctx, uri, E) :: reqs' =>
      let o := GetRequestMetadata ctx uri E c in
      let os := calls reqs' (stored o) in
      (returned o :: returned os, stored os, events o ++ events os)
  end.

Definition is_lock (e : event) : bool :=
  match e with EvLock => true | _ => false end.

(** How often the exclusive section was entered. *)
Definition refreshes (tr : list event) : nat := length (filter is_lock tr).

Lemma refreshes_app tr1 tr2 :
  refreshes (tr1 ++ tr2) = (refreshes tr1 + refreshes tr2)%nat.
Proof. unfold refreshes. by rewrite filter_app, length_app. Qed.

Lemma calls_cons {Context : Type} (ctx : Context) uri E reqs c :
  calls ((ctx, uri, E) :: reqs) c
  = (returned (GetRequestMetadata ctx uri E c)
       :: returned (calls reqs (stored (GetRequestMetadata ctx uri E c))),
     stored (calls reqs (stored (GetRequestMetadata ctx uri E c))),
     events (GetRequestMetadata ctx uri E c)
       ++ events (calls reqs (stored (GetRequestMetadata ctx uri E c)))).
Proof. reflexivity. Qed.

(** A call whose clock reading lies in the window [t0, t0 + 3300], with an
    authority whose tokens of time-to-live [time.Hour] expire 3600 seconds
    after the reading. *)
Definition in_window (t0 : Z) (E : Env) : Prop :=
  t0 ≤ now E ≤ t0 + 3300
  ∧ ∀ subject key u t,
      GenUserToken E subject Hour key = GenOk u t → EXP u = now E + 3600.

Lemma call_in_window {Context : Type} (ctx : Context) uri E c t0 :
  int64 t0 → int64 (t0 + 6900) → in_window t0 E →
  let o := GetRequestMetadata ctx uri E c in
  (t0 + 3600 ≤ tokenExpire c ≤ max64 →
     refreshes (events o) = 0%nat ∧ stored o = c)
  ∧ ((refreshes (events o) = 0%nat ∧ stored o = c)
     ∨ (refreshes (events o) = 1%nat
        ∧ t0 + 3600 ≤ tokenExpire (stored o) ≤ max64)).
Proof.
  intros Ht0 Ht1 [Hw Hauth] o. subst o.
  destruct (path_cases ctx uri E c)
    as [[Hn ->] | [(e' & Hd & Hg & ->) | (u & t & Hd & Hg & ->)]];
    unfold stored, events; cbn [fst snd].
  - split; [done | by left].
  - split; [done | by left].
  - pose proof (Hauth _ _ _ _ Hg) as Hexp. split.
    + intros Hfresh. exfalso.
      rewrite sub64_exact in Hd; [lia |].
      unfold int64, min64, max64 in *. lia.
    + right. split; [done |]. cbn [tokenExpire].
      unfold int64, min64, max64 in *. lia.
Qed.

Lemma calls_in_fresh_window {Context : Type}
    (reqs : list (Context * list string * Env)) c t0 :
  int64 t0 → int64 (t0 + 6900) →
  (∀ ctx uri E, (ctx, uri, E) ∈ reqs → in_window t0 E) →
  t0 + 3600 ≤ tokenExpire c ≤ max64 →
  refreshes (events (calls reqs c)) = 0%nat ∧ stored (calls reqs c) = c.
Proof.
  intros Ht0 Ht1. induction reqs as [| [[ctx uri] E] reqs IH];
    intros Hw Hfresh; [done |].
  assert (Hin : in_window t0 E) by (apply (Hw ctx uri); left).
  destruct (call_in_window ctx uri E c t0 Ht0 Ht1 Hin) as [Hcur _].
  destruct (Hcur Hfresh) as [Hr0 Hst].
  rewrite calls_cons. unfold stored at 1, events at 1; cbn [fst snd].
  rewrite refreshes_app, Hr0, Hst.
  apply IH; [| done]. intros ctx' uri' E' Hin'. apply (Hw ctx' uri'). by right.
Qed.

(** X4. Over any sequence of calls whose clock readings lie within one
    window of 3300 seconds, in whatever order, with an authority whose
    hour-long tokens expire 3600 seconds after the reading and which may
    also fail, the exclusive section is entered at most once: one stored
    token serves the rest of the window. *)
Theorem one_refresh_per_window {Context : Type}
    (reqs : list (Context * list string * Env)) (c : perRPCCreds) (t0 : Z) :
  int64 t0 → int64 (t0 + 6900) →
  (∀ ctx uri E, (ctx, uri, E) ∈ reqs → in_window t0 E) →
  (refreshes (events (calls reqs c)) ≤ 1)%nat.
Proof.
  intros Ht0 Ht1. revert c. induction reqs as [| [[ctx uri] E] reqs IH];
    intros c Hw; [unfold refreshes; simpl; lia |].
  assert (Hin : in_window t0 E) by (apply (Hw ctx uri); left).
  assert (Hrest : ∀ ctx' uri' E', (ctx', uri', E') ∈ reqs → in_window t0 E')
    by (intros ctx' uri' E' Hin'; apply (Hw ctx' uri'); by right).
  destruct (call_in_window ctx uri E c t0 Ht0 Ht1 Hin) as [_ [[Hr0 Hst] | [Hr1 Hfresh]]];
    rewrite calls_cons; unfold events at 1; cbn [snd]; rewrite refreshes_app.
  - rewrite Hr0, Hst. simpl. by apply IH.
  - rewrite Hr1.
    destruct (calls_in_fresh_window reqs _ t0 Ht0 Ht1 Hrest Hfresh) as [-> _].
    lia.
Qed.

Lemma one_refresh_per_window_witness :
  (refreshes (events (calls [((), [], failingEnv 1000);
                             ((), [], sampleEnv 1200);
                             ((), [], sampleEnv 4300)]
                        (freshCreds [x41]))) ≤ 1)%nat.
Proof.
  apply (one_refresh_per_window _ (freshCreds [x41]) 1000).
  - vm_compute. split; discriminate.
  - vm_compute. split; discriminate.
  - intros ctx uri E Hin.
    rewrite !elem_of_cons, elem_of_nil in Hin.
    destruct Hin as [[= _ _ ->] | [[= _ _ ->] | [[= _ _ ->] | []]]];
      (split; [vm_compute; split; discriminate |]);
      intros subject key u t Hg; try discriminate Hg;
      by injection Hg as <- <-.
Defined.




(** X6. Over any sequence of calls the credential keeps the key it started
    with, and every request to the Token Authority names "ssgrpcClient",
    [time.Hour] and that key: the method offers no way to rotate the key or
    to sign with another. *)
Theorem calls_sign_with_initial_key {Context : Type}
    (reqs : list (Context * list string * Env)) (c : perRPCCreds) :
  let os := calls reqs c in
  sharedKey (stored os) = sharedKey c
  ∧ ∀ subject ttl key,
      EvGen subject ttl key ∈ events os →
      subject = "ssgrpcClient" ∧ ttl = Hour ∧ key = sharedKey c.
Proof.
  revert c. induction reqs as [| [[ctx uri] E] reqs IH]; intros c.
  - split; [done |]. intros s ttl k Hin. by apply elem_of_nil in Hin.
  - cbn zeta. rewrite calls_cons. unfold stored at 1, events at 1; cbn [fst snd].
    set (o := GetRequestMetadata ctx uri E c).
    destruct (IH (stored o)) as [Hk Hgen].
    assert (Hone : sharedKey (stored o) = sharedKey c
              ∧ ∀ s ttl k, EvGen s ttl k ∈ events o →
                  s = "ssgrpcClient" ∧ ttl = Hour ∧ k = sharedKey c).
    { subst o.
      destruct (path_cases ctx uri E c)
        as [[_ ->] | [(e' & _ & _ & ->) | (u & t & _ & _ & ->)]];
        unfold stored, events; cbn [fst snd]; (split; [done |]);
        intros s ttl k Hin; event_cases Hin; by injection Hin as -> -> ->. }
    destruct Hone as [Hk1 Hgen1]. split; [congruence |].
    intros s ttl k Hin. apply elem_of_app in Hin as [Hin | Hin].
    + by apply Hgen1.
    + rewrite <- Hk1. by apply Hgen.
Qed.

(** ** Further properties of the runs of the goroutines *)

Module GoroutineRuns.
Import Goroutines.
Import GoroutineProofs.

Local Open Scope nat_scope.

Lemma count_all_done P (fs : list frame) :
  P Done = false → (∀ i f, fs !! i = Some f → pc f = Done) → count P fs = 0.
Proof.
  intros HP Hall. destruct (count P fs) as [| k] eqn:Hc; [done |].
  destruct (count_pos P fs) as (i & f & Hi & Hf); [lia |].
  rewrite (Hall i f Hi) in Hf. congruence.
Qed.

(** X7. In every reachable state of the goroutines, a goroutine at one of
    the two stores or at [Unlock] holds the write lock alone: no reader is
    inside and no other goroutine is in a read section or in the exclusive
    section; and a goroutine inside its read section excludes a writer
    inside. *)
Theorem write_section_is_exclusive (c0 : perRPCCreds) (n : nat)
    (tr : list label) (s : state) :
  run (init c0 n) tr = Some s →
  (∀ i f, goroutines s !! i = Some f → writing (pc f) = true →
     writer s = WriterHolds
     ∧ readerCount s = 0
     ∧ ∀ j g, j ≠ i → goroutines s !! j = Some g →
         reading (pc g) = false ∧ writing (pc g) = false)
  ∧ (∀ i f, goroutines s !! i = Some f → reading (pc f) = true →
     writer s ≠ WriterHolds ∧ 0 < readerCount s).
Proof.
  intros Hrun. pose proof (reachable_inv c0 n tr s Hrun) as HI. split.
  - intros i f Hf Hw. by apply (holder_excludes _ _ s i f HI).
  - intros i f Hf Hr.
    pose proof (count_lookup reading _ _ _ Hf Hr) as Hc.
    rewrite <- (inv_readers _ _ _ HI) in Hc. split; [| lia].
    intros Hh. pose proof (inv_exclusive _ _ _ HI Hh). lia.
Qed.

(** X8. When every call of a run has returned, whether with a token or
    with the error, the mutex is free (no reader counted, no writer waiting
    or inside) and no goroutine has a statement left. *)
Theorem finished_run_leaves_lock_free (c0 : perRPCCreds) (n : nat)
    (tr : list label) (s : state) :
  run (init c0 n) tr = Some s →
  all_done s →
  readerCount s = 0 ∧ writer s = NoWriter ∧ ∀ l, step s l = None.
Proof.
  intros Hrun Hdone. pose proof (reachable_inv c0 n tr s Hrun) as HI.
  split_and!.
  - rewrite (inv_readers _ _ _ HI). by apply count_all_done.
  - pose proof (inv_waiting _ _ _ HI) as Hw.
    pose proof (inv_writing _ _ _ HI) as Hx.
    rewrite count_all_done in Hw by done. rewrite count_all_done in Hx by done.
    by destruct (writer s).
  - intros [i a]. unfold step.
    destruct (goroutines s !! i) as [f |] eqn:Hf; [| done]. simpl.
    by rewrite (Hdone i f Hf).
Qed.

Lemma write_section_is_exclusive_witness :
  ∃ s, run (init (freshCreds [x41]) 2) (take 15 two_refreshers) = Some s
  ∧ (∃ f, goroutines s !! 0 = Some f ∧ writing (pc f) = true)
  ∧ (∀ i f, goroutines s !! i = Some f → writing (pc f) = true →
     writer s = WriterHolds
     ∧ readerCount s = 0
     ∧ ∀ j g, j ≠ i → goroutines s !! j = Some g →
         reading (pc g) = false ∧ writing (pc g) = false)
  ∧ (∀ i f, goroutines s !! i = Some f → reading (pc f) = true →
     writer s ≠ WriterHolds ∧ 0 < readerCount s).
Proof.
  eexists. split; [vm_compute; reflexivity |].
  split; [by eexists |].
  apply (write_section_is_exclusive (freshCreds [x41]) 2
           (take 15 two_refreshers)).
  vm_compute. reflexivity.
Defined.

Lemma finished_run_leaves_lock_free_witness :
  ∃ s, run (init (freshCreds [x41]) 2) two_refreshers = Some s
  ∧ readerCount s = 0 ∧ writer s = NoWriter ∧ ∀ l, step s l = None.
Proof.
  eexists. split; [vm_compute; reflexivity |].
  apply (finished_run_leaves_lock_free (freshCreds [x41]) 2 two_refreshers).
  - vm_compute. reflexivity.
  - intros [| [| i]] f Hf; simpl in Hf; [by injection Hf as <- .. | discriminate].
Defined.

(** The goroutine has copied the key into its locals. *)
Definition key_loaded (p : point) : bool :=
  match p with
  | AtRLock | AtLoadExpire | AtLoadStr | AtLoadKey => false
  | _ => true
  end.

Definition keys_are (k : list byte) (s : state) : Prop :=
  sharedKey (creds s) = k
  ∧ ∀ i f, goroutines s !! i = Some f → key_loaded (pc f) = true → l_key f = k.

Lemma step_keys k s l s' : keys_are k s → step s l = Some s' → keys_are k s'.
Proof.
  intros [Hk Hfr] Hs. destruct l as [i a]. unfold step in Hs.
  destruct (goroutines s !! i) as [f |] eqn:Hf; [| discriminate]. simpl in Hs.
  pose proof (Hfr i f Hf) as Hok.
  destruct f as [p e t key r]; simpl in *.
  destruct p, a as [| now | [u t' | err]]; try discriminate;
    try (destruct (writer s); try discriminate);
    try (destruct (readerCount s); try discriminate);
    try (destruct (sub64 e 300 <? now)%Z);
    injection Hs as <-; unfold set_frame; (split; simpl; [done |]);
    intros j g Hj;
    apply list_lookup_insert_Some in Hj as [(-> & <- & _) | (Hne & Hj)];
    simpl; try (intros _; by apply Hok); try done; try (by apply Hfr with j).
Qed.

(** X9. Along every run the credential keeps the key it started with, and
    every goroutine past [sharedKey = c.sharedKey] holds that key in its
    locals, whatever the other goroutines have stored meanwhile. *)
Theorem run_keeps_key (c0 : perRPCCreds) (n : nat) (tr : list label)
    (s : state) :
  run (init c0 n) tr = Some s → keys_are (sharedKey c0) s.
Proof.
  assert (Hgen : ∀ tr s0, keys_are (sharedKey c0) s0 →
            run s0 tr = Some s → keys_are (sharedKey c0) s).
  { clear tr. intros tr. induction tr as [| l tr IH]; intros s0 Hk Hrun;
      simpl in Hrun.
    - by injection Hrun as <-.
    - destruct (step s0 l) as [s1 |] eqn:Hs; [| discriminate].
      simpl in Hrun. eapply IH; [| done]. by eapply step_keys. }
  apply Hgen. split; [done |].
  intros i f Hi. apply lookup_replicate in Hi as [-> _]. discriminate.
Qed.

(** The labels of goroutine [i] taking the inputs [ins] in a row. *)
Definition by_goroutine (i : nat) (ins : list input) : list label :=
  (λ a, (i, a)) <$> ins.

(** A step looks at and changes only the frame of its goroutine, the lock
    and the credential: what it does on a one-frame pool it does at any
    index of any pool. *)
Lemma step_local c r w f a s1 :
  step (mkState c r w [f]) (0, a) = Some s1 →
  ∃ f1, goroutines s1 = [f1]
        ∧ ∀ fs i, fs !! i = Some f →
            step (mkState c r w fs) (i, a)
            = Some (mkState (creds s1) (readerCount s1) (writer s1)
                      (<[i := f1]> fs)).
Proof.
  unfold step. simpl. destruct f as [p e t k res]; simpl.
  destruct p, a as [| now | [u t' | err]]; try discriminate;
    try (destruct w; try discriminate);
    try (destruct r; try discriminate);
    try (destruct (sub64 e 300 <? now)%Z eqn:Hlt);
    intros [= <-]; simpl; eexists; (split; [reflexivity |]);
    intros fs i Hi; simpl; rewrite Hi; simpl; rewrite ?Hlt; reflexivity.
Qed.

Lemma run_local ins : ∀ c r w f s1,
  run (mkState c r w [f]) (by_goroutine 0 ins) = Some s1 →
  ∃ f1, goroutines s1 = [f1]
        ∧ ∀ fs i, fs !! i = Some f →
            run (mkState c r w fs) (by_goroutine i ins)
            = Some (mkState (creds s1) (readerCount s1) (writer s1)
                      (<[i := f1]> fs)).
Proof.
  unfold by_goroutine.
  induction ins as [| a ins IH]; intros c r w f s1 Hrun;
    cbn [fmap list_fmap run] in Hrun.
  - injection Hrun as <-. exists f. split; [done |].
    intros fs i Hi. simpl. by rewrite list_insert_id.
  - destruct (step (mkState c r w [f]) (0, a)) as [s2 |] eqn:Hs;
      [| discriminate]. cbn [mbind option_bind] in Hrun.
    destruct (step_local _ _ _ _ _ _ Hs) as (f2 & Hf2 & Hloc).
    destruct s2 as [c2 r2 w2 fs2]. simpl in Hf2. subst fs2.
    destruct (IH _ _ _ _ _ Hrun) as (f1 & Hf1 & Hrest).
    exists f1. split; [done |].
    intros fs i Hi. cbn [fmap list_fmap run]. rewrite (Hloc fs i Hi).
    cbn [mbind option_bind creds readerCount writer].
    rewrite (Hrest (<[i := f2]> fs) i).
    + by rewrite list_insert_insert_eq.
    + apply list_lookup_insert_eq. by eapply lookup_lt_Some.
Qed.

Local Open Scope Z_scope.

(** The inputs of one call running without interruption, with the clock
    reading and the answer that [E] gives the method. *)
Definition solo_inputs (E : Env) (c : perRPCCreds) : list input :=
  replicate 5 Internal ++ [Clock (now E)]
  ++ (if sub64 (tokenExpire c) 300 <? now E
      then
        let r := GenUserToken E "ssgrpcClient" Hour (sharedKey c) in
        Issued r
          :: match r with
             | GenOk _ _ => replicate 6 Internal
             | GenErr _ => []
             end
      else [Internal]).

Lemma solo_on_one_frame {Context : Type} (ctx : Context) (uri : list string)
    (E : Env) (c : perRPCCreds) :
  let o := GetRequestMetadata ctx uri E c in
  ∃ f, run (mkState c 0 NoWriter [entry]) (by_goroutine 0 (solo_inputs E c))
       = Some (mkState (stored o) 0 NoWriter [f])
       ∧ pc f = Done
       ∧ l_result f = Some (returned o).
Proof.
  intros o. subst o. unfold solo_inputs.
  destruct (path_cases ctx uri E c)
    as [[Hn ->] | [(e' & Hd & Hg & ->) | (u & t & Hd & Hg & ->)]];
    unfold stored, returned; cbn [fst snd].
  - destruct (Z.ltb_spec (sub64 (tokenExpire c) 300) (now E)) as [| Hge];
      [lia |].
    simpl. rewrite (proj2 (Z.ltb_ge _ _) Hge). simpl.
    eexists. split; [reflexivity |]. split; [done |]. simpl.
    by rewrite insert_empty.
  - destruct (Z.ltb_spec (sub64 (tokenExpire c) 300) (now E)) as [_ |];
      [| lia].
    rewrite Hg. simpl. rewrite (proj2 (Z.ltb_lt _ _) Hd). simpl.
    eexists. split; [reflexivity |]. done.
  - destruct (Z.ltb_spec (sub64 (tokenExpire c) 300) (now E)) as [_ |];
      [| lia].
    rewrite Hg. simpl. rewrite (proj2 (Z.ltb_lt _ _) Hd). simpl.
    eexists. split; [reflexivity |]. split; [done |]. simpl.
    by rewrite insert_empty.
Qed.

(** X10. From any state in which the mutex is free, a goroutine that runs
    its call without interruption, with the clock reading and the answer
    of [E], ends with the results and leaves the credential that
    [GetRequestMetadata] gives on the credential of that state, with the
    mutex free again; where the other goroutines stand does not matter. *)
Theorem uninterrupted_call_matches_method {Context : Type} (ctx : Context)
    (uri : list string) (E : Env) (s : state) (i : nat) :
  goroutines s !! i = Some entry →
  readerCount s = 0%nat →
  writer s = NoWriter →
  let o := GetRequestMetadata ctx uri E (creds s) in
  ∃ f, run s (by_goroutine i (solo_inputs E (creds s)))
       = Some (mkState (stored o) 0 NoWriter (<[i := f]> (goroutines s)))
       ∧ pc f = Done
       ∧ l_result f = Some (returned o).
Proof.
  intros Hi Hr Hw o. subst o. destruct s as [c r w fs]. simpl in *. subst r w.
  destruct (solo_on_one_frame ctx uri E c) as (f & Hrun & Hpc & Hres).
  destruct (run_local _ _ _ _ _ _ Hrun) as (f1 & [= <-] & Hloc).
  exists f. split; [| done]. by apply Hloc.
Qed.


Lemma run_app s tr1 tr2 :
  run s (tr1 ++ tr2) = s' ← run s tr1 ; run s' tr2.
Proof.
  revert s. induction tr1 as [| l tr1 IH]; intros s; [done |].
  cbn [app run]. destruct (step s l) as [s1 |]; [| done].
  cbn [mbind option_bind]. apply IH.
Qed.

Lemma insert_middle (pre post : list frame) f g :
  <[length pre := g]> (pre ++ f :: post) = pre ++ g :: post.
Proof.
  rewrite insert_app_r_alt by lia. by rewrite Nat.sub_diag.
Qed.

(** Goroutines [i], [i+1], ... making the calls of [Es] one after the
    other, none starting before the one before it has returned. *)
Fixpoint serial_trace (i : nat) (Es : list Env) (c : perRPCCreds)
  : list label :=
  match Es with
  | [] => []
  | E :: Es' =>
      by_goroutine i (solo_inputs E c)
      ++ serial_trace (S i) Es' (stored (GetRequestMetadata () [] E c))
  end.

Definition as_requests (Es : list Env) : list (() * list string * Env) :=
  (λ E, ((), [], E)) <$> Es.

Lemma serial_from (Es : list Env) : ∀ (pre : list frame) (c : perRPCCreds),
  let os := calls (as_requests Es) c in
  ∃ fs, run (mkState c 0 NoWriter (pre ++ replicate (length Es) entry))
          (serial_trace (length pre) Es c)
        = Some (mkState (stored os) 0 NoWriter (pre ++ fs))
        ∧ Forall (λ f, pc f = Done) fs
        ∧ l_result <$> fs = Some <$> returned os.
Proof.
  induction Es as [| E Es IH]; intros pre c.
  - exists []. by rewrite !app_nil_r.
  - cbn zeta. cbn [length replicate serial_trace as_requests fmap list_fmap].
    fold (as_requests Es). rewrite calls_cons.
    set (o := GetRequestMetadata () [] E c).
    destruct (solo_on_one_frame () [] E c) as (f & Hrun & Hpc & Hres).
    destruct (run_local _ _ _ _ _ _ Hrun) as (f1 & [= <-] & Hloc).
    rewrite run_app.
    rewrite (Hloc (pre ++ entry :: replicate (length Es) entry) (length pre))
      by apply list_lookup_middle, eq_refl.
    cbn [mbind option_bind creds readerCount writer].
    rewrite insert_middle.
    destruct (IH (pre ++ [f]) (stored o)) as (fs & Hrest & Hdone & Hresults).
    rewrite length_app, Nat.add_1_r, <- app_assoc in Hrest. cbn [app] in Hrest.
    exists (f :: fs). unfold stored at 1, returned at 2; cbn [fst snd].
    split; [| split].
    + etrans; [exact Hrest |]. by rewrite <- app_assoc.
    + by constructor.
    + cbn [fmap list_fmap]. by rewrite Hres, Hresults.
Qed.

(** X11. Goroutines whose calls do not overlap behave as the calls made
    one after the other: the run in which each goroutine starts after the
    one before it has returned ends with every call returned, with the
    results of [calls] in order and with its final credential. *)
Theorem serial_run_matches_calls (Es : list Env) (c : perRPCCreds) :
  let os := calls (as_requests Es) c in
  ∃ s, run (init c (length Es)) (serial_trace 0 Es c) = Some s
       ∧ all_done s
       ∧ creds s = stored os
       ∧ l_result <$> goroutines s = Some <$> returned os.
Proof.
  destruct (serial_from Es [] c) as (fs & Hrun & Hdone & Hres).
  eexists. split; [exact Hrun |]. split; [| done].
  intros i f Hi. simpl in Hi. by apply (Forall_lookup_1 _ _ _ _ Hdone Hi).
Qed.

(** *** Overlapping refreshes *)

(** The frame of a goroutine holding the answer [(u, tk)] of the Token
    Authority and about to take the write lock; the frame it returns with. *)
Definition minted_frame (k : list byte) (a : User * string) : frame :=
  mkFrame AtLock (EXP a.1) a.2 k None.

Definition returned_frame (k : list byte) (a : User * string) : frame :=
  mkFrame Done (EXP a.1) a.2 k (Some (bearer a.2, None)).

(** Every goroutine in turn reads the credential at clock [t] and gets its
    answer; only then do they store, in turn. *)
Fixpoint all_read (i : nat) (t : Z) (answers : list (User * string))
  : list label :=
  match answers with
  | [] => []
  | (u, tk) :: answers' =>
      by_goroutine i (replicate 5 Internal ++ [Clock t; Issued (GenOk u tk)])
      ++ all_read (S i) t answers'
  end.

Fixpoint all_store (i : nat) (n : nat) : list label :=
  match n with
  | O => []
  | S n' => by_goroutine i (replicate 6 Internal) ++ all_store (S i) n'
  end.

Lemma all_read_from (c : perRPCCreds) (t : Z) (answers : list (User * string)) :
  sub64 (tokenExpire c) 300 < t →
  ∀ pre : list frame,
    run (mkState c 0 NoWriter (pre ++ replicate (length answers) entry))
      (all_read (length pre) t answers)
    = Some (mkState c 0 NoWriter
              (pre ++ (minted_frame (sharedKey c) <$> answers))).
Proof.
  intros Hdue. induction answers as [| [u tk] answers IH]; intros pre; [done |].
  cbn [length replicate]. cbn [all_read fmap list_fmap].
  assert (Hone : run (mkState c 0 NoWriter [entry])
            (by_goroutine 0
               (replicate 5 Internal ++ [Clock t; Issued (GenOk u tk)]))
          = Some (mkState c 0 NoWriter [minted_frame (sharedKey c) (u, tk)])).
  { simpl. by rewrite (proj2 (Z.ltb_lt _ _) Hdue). }
  destruct (run_local _ _ _ _ _ _ Hone) as (f1 & [= <-] & Hloc).
  rewrite run_app.
  rewrite (Hloc (pre ++ entry :: replicate (length answers) entry) (length pre))
    by apply list_lookup_middle, eq_refl.
  cbn [mbind option_bind creds readerCount writer]. rewrite insert_middle.
  specialize (IH (pre ++ [minted_frame (sharedKey c) (u, tk)])).
  rewrite length_app, Nat.add_1_r, <- !app_assoc in IH. exact IH.
Qed.

(** The credential after the answers have been stored in order. *)
Definition last_stored (c : perRPCCreds) (answers : list (User * string))
  : perRPCCreds :=
  match last answers with
  | Some (u, tk) => mkCreds tk (EXP u) (sharedKey c)
  | None => c
  end.

Lemma all_store_from (k : list byte) (answers : list (User * string)) :
  ∀ (pre : list frame) (c : perRPCCreds),
    run (mkState c 0 NoWriter (pre ++ (minted_frame k <$> answers)))
      (all_store (length pre) (length answers))
    = Some (mkState (last_stored c answers) 0 NoWriter
              (pre ++ (returned_frame k <$> answers))).
Proof.
  induction answers as [| [u tk] answers IH]; intros pre c; [done |].
  cbn [length fmap list_fmap]. cbn [all_store].
  assert (Hone : run (mkState c 0 NoWriter [minted_frame k (u, tk)])
            (by_goroutine 0 (replicate 6 Internal))
          = Some (mkState (mkCreds tk (EXP u) (sharedKey c)) 0 NoWriter
                    [returned_frame k (u, tk)])).
  { simpl. unfold returned_frame, bearer. simpl. by rewrite insert_empty. }
  destruct (run_local _ _ _ _ _ _ Hone) as (f1 & [= <-] & Hloc).
  rewrite run_app.
  rewrite (Hloc (pre ++ minted_frame k (u, tk) :: (minted_frame k <$> answers))
             (length pre)) by apply list_lookup_middle, eq_refl.
  cbn [mbind option_bind creds readerCount writer]. rewrite insert_middle.
  specialize (IH (pre ++ [returned_frame k (u, tk)])
                (mkCreds tk (EXP u) (sharedKey c))).
  rewrite length_app, Nat.add_1_r, <- !app_assoc in IH.
  etrans; [exact IH |]. f_equal. f_equal.
  unfold last_stored. destruct answers as [| [u' tk'] answers].
  - reflexivity.
  - rewrite last_cons_cons.
    destruct (last ((u', tk') :: answers)) as [[] |] eqn:Hl; [reflexivity |].
    by apply last_None in Hl.
Qed.

Lemma all_read_issued i t answers :
  all_read i t answers ≫= issued_pair = (λ a, (a.2, EXP a.1)) <$> answers.
Proof.
  revert i. induction answers as [| [u tk] answers IH]; intros i; [done |].
  cbn [all_read]. rewrite bind_app, IH. done.
Qed.

Lemma all_store_issued i n : all_store i n ≫= issued_pair = [].
Proof.
  revert i. induction n as [| n IH]; intros i; [done |].
  cbn [all_store]. rewrite bind_app, IH. done.
Qed.

(** X12. The test of line 32 uses the snapshot taken in the read section
    and is not repeated under the write lock: on a credential that is due
    at clock [t], for any list of answers there is a run in which every
    goroutine requests its own token from the Token Authority, every one
    stores and returns the token it got, and the credential ends with the
    pair stored last. *)
Theorem stale_credential_refreshed_by_all (c : perRPCCreds) (t : Z)
    (answers : list (User * string)) :
  sub64 (tokenExpire c) 300 < t →
  ∃ tr s, run (init c (length answers)) tr = Some s
    ∧ all_done s
    ∧ tr ≫= issued_pair = (λ a, (a.2, EXP a.1)) <$> answers
    ∧ l_result <$> goroutines s = (λ a, Some (bearer a.2, None)) <$> answers
    ∧ creds s = last_stored c answers.
Proof.
  intros Hdue.
  exists (all_read 0 t answers ++ all_store 0 (length answers)), 
    (mkState (last_stored c answers) 0 NoWriter
       (returned_frame (sharedKey c) <$> answers)).
  split_and!.
  - rewrite run_app.
    pose proof (all_read_from c t answers Hdue []) as Hread.
    cbn [app length] in Hread. unfold init. rewrite Hread.
    cbn [mbind option_bind]. apply (all_store_from _ answers [] c).
  - intros i f Hi. cbn [goroutines] in Hi.
    apply list_lookup_fmap_Some in Hi as (a & -> & _). done.
  - by rewrite bind_app, all_read_issued, all_store_issued, app_nil_r.
  - cbn [goroutines]. rewrite <- list_fmap_compose. done.
  - done.
Qed.

Lemma run_keeps_key_witness :
  ∃ s, run (init (freshCreds [x41]) 2) two_refreshers = Some s
       ∧ keys_are (sharedKey (freshCreds [x41])) s.
Proof.
  eexists. split; [vm_compute; reflexivity |].
  apply (run_keeps_key (freshCreds [x41]) 2 two_refreshers).
  vm_compute. reflexivity.
Defined.

Lemma uninterrupted_call_matches_method_witness :
  let s := init (freshCreds [x41]) 2 in
  let o := GetRequestMetadata () [] (sampleEnv 1000) (creds s) in
  ∃ f, run s (by_goroutine 1 (solo_inputs (sampleEnv 1000) (creds s)))
       = Some (mkState (stored o) 0 NoWriter (<[1%nat := f]> (goroutines s)))
       ∧ pc f = Done
       ∧ l_result f = Some (returned o).
Proof.
  apply (uninterrupted_call_matches_method () [] (sampleEnv 1000)
           (init (freshCreds [x41]) 2) 1); reflexivity.
Defined.

Lemma stale_credential_refreshed_by_all_witness :
  let c := freshCreds [x41] in
  let answers := [(mkUser "ssgrpcClient" 4600, "A");
                  (mkUser "ssgrpcClient" 4600, "B")] in
  ∃ tr s, run (init c (length answers)) tr = Some s
    ∧ all_done s
    ∧ tr ≫= issued_pair = (λ a, (a.2, EXP a.1)) <$> answers
    ∧ l_result <$> goroutines s = (λ a, Some (bearer a.2, None)) <$> answers
    ∧ creds s = last_stored c answers.
Proof.
  apply (stale_credential_refreshed_by_all (freshCreds [x41]) 1000
           [(mkUser "ssgrpcClient" 4600, "A");
            (mkUser "ssgrpcClient" 4600, "B")]).
  reflexivity.
Defined.

End GoroutineRuns.

(** ** The example application (grpc-multihome/main.go) *)

Module Multihome.

(** The JSON payloads of the example. *)
Record socketcast : Type := mkSocketcast {
  sc_SocketID : string;
  sc_Data     : string;
}.

Record roomcast : Type := mkRoomcast {
  rc_Room : string;
  rc_Data : string;
}.

Record message : Type := mkMessage {
  m_Message : string;
}.

(** What a handler hands to the socket as [interface{}]. *)
Inductive payload : Type :=
| PString (s : string)
| PBytes (b : list byte)
| PMessage (m : message)
| PSocketcast (sc : socketcast)
| PRoomcast (r : roomcast).

(** The calls a handler makes on its socket [s], and the log line of
    [check]. *)
Inductive action : Type :=
| s_Emit (eventName : string) (data : payload)
| s_Join (room : string)
| s_Leave (room : string)
| s_Socketcast (socketID eventName : string) (data : payload)
| s_Roomcast (room eventName : string) (data : payload)
| s_Broadcast (eventName : string) (data : payload)
| log_Println (err : error).

(** [json.Unmarshal(data, &v)] for the three payload types: the value left
    in [v], which started as the zero value, and the error. *)
Record Json : Type := mkJson {
  unmarshal_message    : list byte → message * option error;
  unmarshal_socketcast : list byte → socketcast * option error;
  unmarshal_roomcast   : list byte → roomcast * option error;
}.

(** [func check(err error)]: logs and goes on. *)
Definition check (err : option error) : list action :=
  match err with
  | Some e => [log_Println e]
  | None => []
  end.

(** The handlers, [func Name(s *ss.Socket, data []byte)]: the calls each
    makes on its socket [s], in order. [string(data)] and [[]byte(text)]
    are the conversions between bytes and strings. Every handler takes the
    decoder, used or not, so that the registrations have one type. *)
Definition Echo (J : Json) (data : list byte) : list action :=
  [s_Emit "echo" (PString (String.string_of_list_byte data))].

Definition EchoBin (J : Json) (data : list byte) : list action :=
  [s_Emit "echobin" (PBytes data)].

Definition EchoJSON (J : Json) (data : list byte) : list action :=
  let '(m, err) := unmarshal_message J data in
  check err ++ [s_Emit "echojson" (PMessage m)].

Definition Join (J : Json) (data : list byte) : list action :=
  let d := String.string_of_list_byte data in
  [s_Join d; s_Emit "echo" (PString ("joined room:" +:+ d))].

Definition Leave (J : Json) (data : list byte) : list action :=
  let d := String.string_of_list_byte data in
  [s_Leave d; s_Emit "echo" (PString ("left room:" +:+ d))].

Definition Socketcast (J : Json) (data : list byte) : list action :=
  let '(sc, err) := unmarshal_socketcast J data in
  check err ++ [s_Socketcast (sc_SocketID sc) "socketcast" (PString (sc_Data sc))].

Definition SocketcastBin (J : Json) (data : list byte) : list action :=
  let '(sc, err) := unmarshal_socketcast J data in
  check err
  ++ [s_Socketcast (sc_SocketID sc) "socketcastbin"
        (PBytes (String.list_byte_of_string (sc_Data sc)))].

Definition SocketcastJSON (J : Json) (data : list byte) : list action :=
  let '(sc, err) := unmarshal_socketcast J data in
  check err ++ [s_Socketcast (sc_SocketID sc) "socketcastjson" (PSocketcast sc)].

Definition Roomcast (J : Json) (data : list byte) : list action :=
  let '(r, err) := unmarshal_roomcast J data in
  check err ++ [s_Roomcast (rc_Room r) "roomcast" (PString (rc_Data r))].

Definition RoomcastBin (J : Json) (data : list byte) : list action :=
  let '(r, err) := unmarshal_roomcast J data in
  check err
  ++ [s_Roomcast (rc_Room r) "roomcastbin"
        (PBytes (String.list_byte_of_string (rc_Data r)))].

Definition RoomcastJSON (J : Json) (data : list byte) : list action :=
  let '(r, err) := unmarshal_roomcast J data in
  check err ++ [s_Roomcast (rc_Room r) "roomcastjson" (PRoomcast r)].

Definition Broadcast (J : Json) (data : list byte) : list action :=
  [s_Broadcast "broadcast" (PString (String.string_of_list_byte data))].

Definition BroadcastBin (J : Json) (data : list byte) : list action :=
  [s_Broadcast "broadcastbin" (PBytes data)].

Definition BroadcastJSON (J : Json) (data : list byte) : list action :=
  let '(m, err) := unmarshal_message J data in
  check err ++ [s_Broadcast "broadcastjson" (PMessage m)].

(** The registrations of [main], [s.On(name, handler)], in order. *)
Definition registered : list (string * (Json → list byte → list action)) :=
  [("echo", Echo); ("echobin", EchoBin); ("echojson", EchoJSON);
   ("join", Join); ("leave", Leave);
   ("socketcast", Socketcast); ("socketcastbin", SocketcastBin);
   ("socketcastjson", SocketcastJSON);
   ("roomcast", Roomcast); ("roomcastbin", RoomcastBin);
   ("roomcastjson", RoomcastJSON);
   ("broadcast", Broadcast); ("broadcastbin", BroadcastBin);
   ("broadcastjson", BroadcastJSON)].

(** Where a send goes. *)
Inductive target : Type :=
| ToSender
| ToSocket (socketID : string)
| ToRoom (room : string)
| ToAll.

(** The sends among the actions: target, event name, payload. *)
Definition send_of (a : action) : option (target * string * payload) :=
  match a with
  | s_Emit n d => Some (ToSender, n, d)
  | s_Socketcast id n d => Some (ToSocket id, n, d)
  | s_Roomcast r n d => Some (ToRoom r, n, d)
  | s_Broadcast n d => Some (ToAll, n, d)
  | _ => None
  end.

Definition sends (acts : list action) : list (target * string * payload) :=
  omap send_of acts.

Definition logged (acts : list action) : list error :=
  omap (λ a, match a with log_Println e => Some e | _ => None end) acts.

Definition is_membership (a : action) : bool :=
  match a with s_Join _ | s_Leave _ => true | _ => false end.

(** The event name a registration answers under: its own, but "echo" for
    the two membership handlers. *)
Definition reply_name (name : string) : string :=
  if decide (name = "join" ∨ name = "leave") then "echo" else name.

(** The family of a registration, by target of its send. *)
Definition target_fits (name : string) (t : target) : bool :=
  match t with
  | ToSocket _ => String.prefix "socketcast" name
  | ToRoom _ => String.prefix "roomcast" name
  | ToAll => String.prefix "broadcast" name
  | ToSender =>
      String.prefix "echo" name || String.eqb name "join"
      || String.eqb name "leave"
  end.

(** The error [json.Unmarshal] gives the handler registered under [name]:
    the socketcast and roomcast families decode their own struct, echojson
    and broadcastjson a [message], the others nothing. *)
Definition decode_error (name : string) (J : Json) (data : list byte)
  : option error :=
  if String.prefix "socketcast" name then (unmarshal_socketcast J data).2
  else if String.prefix "roomcast" name then (unmarshal_roomcast J data).2
  else if String.eqb name "echojson" || String.eqb name "broadcastjson"
  then (unmarshal_message J data).2
  else None.

(** Where the handler registered under [name] sends: to the socket or the
    room that [json.Unmarshal] left in the struct, to everyone, or back to
    the sender. *)
Definition target_of (name : string) (J : Json) (data : list byte) : target :=
  if String.prefix "socketcast" name
  then ToSocket (sc_SocketID (unmarshal_socketcast J data).1)
  else if String.prefix "roomcast" name
  then ToRoom (rc_Room (unmarshal_roomcast J data).1)
  else if String.prefix "broadcast" name then ToAll
  else ToSender.

(** The package-level flags of main.go, after [flag.Parse()]. *)
Record flags : Type := mkFlags {
  webPort      : string;
  key          : string;
  cert         : string;
  peerList     : string;
  sharedKey    : string;
  grpcHostPort : string;
  insecure     : bool;
}.

(** What [main] does to the outside, in program order. *)
Inductive effect : Type :=
| flag_Parse
| log_SetDefaultLogger
| ss_NewServer
| s_On (name : string)
| log_Err_Println (msg : string)
| flag_PrintDefaults
| ssgrpc_NewInsecureBackend (grpcHostPort : string) (peers : list string)
| ssgrpc_NewBackend (key cert grpcHostPort : string) (sharedKey : list byte)
    (peers : list string)
| s_SetMultihomeBackend
| s_EnableSignalShutdown
| go_exit_on_signal
| http_Handle (pattern : string)
| http_ListenAndServe (addr : string)
| http_ListenAndServeTLS (addr certFile keyFile : string)
| log_Err_Fatalln (err : error).

(** [func main()]. [Split] stands for [strings.Split]; [listen] is the
    error the HTTP server returns with, if it returns.

    Modelled from the spec: [ssgrpc.NewBackend] and
    [ssgrpc.NewInsecureBackend] are not among the sources. Construction
    "fails fatally at startup if any peer string is malformed", as it does
    on missing TLS material ("ConfigError ... fatal at startup, never
    recovered"): the constructor either returns the backend or ends the
    process, and [built] says which. *)
Definition main (Split : string → string → list string) (F : flags)
    (built : bool) (listen : option error) : list effect :=
  [flag_Parse; log_SetDefaultLogger; ss_NewServer]
  ++ (s_On <$> registered.*1)
  ++ (if decide (peerList F = "")
      then [log_Err_Println "must provide peers to connect to";
            flag_PrintDefaults]
      else
        let peers := Split (peerList F) "," in
        (if insecure F
         then ssgrpc_NewInsecureBackend (grpcHostPort F) peers
         else ssgrpc_NewBackend (key F) (cert F) (grpcHostPort F)
                (String.list_byte_of_string (sharedKey F)) peers)
        :: (if built
            then
              [s_SetMultihomeBackend; s_EnableSignalShutdown;
               go_exit_on_signal;
               http_Handle "/socket"; http_Handle "/";
               if insecure F
               then http_ListenAndServe (webPort F)
               else http_ListenAndServeTLS (webPort F) (cert F) (key F)]
              ++ match listen with
                 | Some err => [log_Err_Fatalln err]
                 | None => []
                 end
            else [])).

Definition is_backend (e : effect) : bool :=
  match e with
  | ssgrpc_NewInsecureBackend _ _ | ssgrpc_NewBackend _ _ _ _ _ => true
  | _ => false
  end.

Definition is_listen (e : effect) : bool :=
  match e with
  | http_ListenAndServe _ | http_ListenAndServeTLS _ _ _ => true
  | _ => false
  end.

Definition is_fatal (e : effect) : bool :=
  match e with log_Err_Fatalln _ => true | _ => false end.

Definition is_serving (e : effect) : bool :=
  match e with
  | s_SetMultihomeBackend | s_EnableSignalShutdown | go_exit_on_signal
  | http_Handle _ | log_Err_Fatalln _ => true
  | _ => is_backend e || is_listen e
  end.

End Multihome.

Module MultihomeProofs.
Import Multihome.

Local Open Scope nat_scope.

(** X13. Every handler that [main] registers, on every payload and
    whatever [json.Unmarshal] answers, sends exactly one message: under the
    event name it is registered for ("echo" for join and leave), to the
    sender, the socket or room left in the decoded struct, or everyone, as
    that name says. What it logs is exactly the error of its own call to
    [json.Unmarshal], if there is one, and it logs it before it sends: a
    payload that fails to decode is logged and the message still goes out.
    Only join and leave touch room membership. *)
Theorem registered_handlers_send_once (name : string)
    (h : Json → list byte → list action) (J : Json) (data : list byte) :
  (name, h) ∈ registered →
  (∃ d, sends (h J data) = [(target_of name J data, reply_name name, d)])
  ∧ target_fits name (target_of name J data) = true
  ∧ logged (h J data) = option_list (decode_error name J data)
  ∧ (∃ rest, h J data = (log_Println <$> logged (h J data)) ++ rest
             ∧ logged rest = []
             ∧ sends rest = sends (h J data))
  ∧ length (logged (h J data)) ≤ 1
  ∧ (filter is_membership (h J data) ≠ [] → name = "join" ∨ name = "leave").
Proof.
  unfold registered. rewrite !elem_of_cons, elem_of_nil. intros Hin.
  repeat (destruct Hin as [[= -> ->] | Hin]); try contradiction.
  all: unfold Echo, EchoBin, EchoJSON, Join, Leave, Socketcast, SocketcastBin,
         SocketcastJSON, Roomcast, RoomcastBin, RoomcastJSON, Broadcast,
         BroadcastBin, BroadcastJSON, decode_error, target_of;
       destruct (unmarshal_message J data) as [m [e1 |]];
       destruct (unmarshal_socketcast J data) as [sc [e2 |]];
       destruct (unmarshal_roomcast J data) as [r [e3 |]].
  all: (split; [eexists; reflexivity |]);
       (split; [reflexivity |]);
       (split; [reflexivity |]);
       (split; [eexists; split_and!; reflexivity |]);
       (split; [simpl; lia |]); simpl; intros Hm; try done; auto.
Qed.

(** A decoder for the worked examples: every payload fails to decode and
    leaves the zero value. *)
Definition rejecting : Json :=
  mkJson (λ _, (mkMessage "", Some (Err "unexpected end of JSON input")))
         (λ _, (mkSocketcast "" "", Some (Err "unexpected end of JSON input")))
         (λ _, (mkRoomcast "" "", Some (Err "unexpected end of JSON input"))).

Lemma registered_handlers_send_once_witness :
  let name := "socketcastbin" in
  let acts := SocketcastBin rejecting [] in
  (∃ d, sends acts = [(target_of name rejecting [], reply_name name, d)])
  ∧ target_fits name (target_of name rejecting []) = true
  ∧ logged acts = option_list (decode_error name rejecting [])
  ∧ (∃ rest, acts = (log_Println <$> logged acts) ++ rest
             ∧ logged rest = []
             ∧ sends rest = sends acts)
  ∧ length (logged acts) ≤ 1
  ∧ (filter is_membership acts ≠ [] → name = "join" ∨ name = "leave").
Proof.
  apply (registered_handlers_send_once "socketcastbin" SocketcastBin rejecting []).
  unfold registered. rewrite !elem_of_cons. do 6 right. by left.
Defined.

(** A socketcast whose payload does not decode: the error is logged, then
    the cast goes out to the socket ID the decoder left, here the empty
    one. *)
Example undecodable_socketcast :
  Socketcast rejecting []
  = [log_Println (Err "unexpected end of JSON input");
     s_Socketcast "" "socketcast" (PString "")].
Proof. reflexivity. Qed.

(** X14. The handlers for binary payloads carry, byte for byte, the data
    of their text twins to the same target: the bytes that socketcastbin
    and roomcastbin send read back as the string that socketcast and
    roomcast send, and the string that echo and broadcast send converts
    back to the bytes that echobin and broadcastbin send. *)
Theorem bin_handlers_carry_same_data (J : Json) (data : list byte) :
  (∃ id d b,
     sends (Socketcast J data) = [(ToSocket id, "socketcast", PString d)]
     ∧ sends (SocketcastBin J data) = [(ToSocket id, "socketcastbin", PBytes b)]
     ∧ String.string_of_list_byte b = d)
  ∧ (∃ room d b,
     sends (Roomcast J data) = [(ToRoom room, "roomcast", PString d)]
     ∧ sends (RoomcastBin J data) = [(ToRoom room, "roomcastbin", PBytes b)]
     ∧ String.string_of_list_byte b = d)
  ∧ (∃ d,
     sends (Echo J data) = [(ToSender, "echo", PString d)]
     ∧ sends (EchoBin J data) = [(ToSender, "echobin", PBytes data)]
     ∧ String.list_byte_of_string d = data)
  ∧ (∃ d,
     sends (Broadcast J data) = [(ToAll, "broadcast", PString d)]
     ∧ sends (BroadcastBin J data) = [(ToAll, "broadcastbin", PBytes data)]
     ∧ String.list_byte_of_string d = data).
Proof.
  split_and!.
  - unfold Socketcast, SocketcastBin.
    destruct (unmarshal_socketcast J data) as [sc [e |]];
      eexists _, _, _; (split_and!; [reflexivity | reflexivity |]);
      apply String.string_of_list_byte_of_string.
  - unfold Roomcast, RoomcastBin.
    destruct (unmarshal_roomcast J data) as [r [e |]];
      eexists _, _, _; (split_and!; [reflexivity | reflexivity |]);
      apply String.string_of_list_byte_of_string.
  - eexists. split_and!; [reflexivity | reflexivity |].
    apply String.list_byte_of_string_of_list_byte.
  - eexists. split_and!; [reflexivity | reflexivity |].
    apply String.list_byte_of_string_of_list_byte.
Qed.

(** X15. With an empty peer list [main] ends after printing the flag
    defaults: it creates no backend, installs no signal shutdown, registers
    no HTTP handler and starts no listener. *)
Theorem main_without_peers_serves_nothing
    (Split : string → string → list string) (F : flags) (built : bool)
    (listen : option error) :
  peerList F = "" →
  filter is_serving (main Split F built listen) = []
  ∧ last (main Split F built listen) = Some flag_PrintDefaults.
Proof.
  intros Hp. unfold main. destruct (decide (peerList F = "")); [| done].
  split; reflexivity.
Qed.

Lemma main_without_peers_serves_nothing_witness :
  let F := mkFlags ":8081" "k.key" "c.crt" "" "secret" ":30001" false in
  filter is_serving (main (λ s _, [s]) F true None) = []
  ∧ last (main (λ s _, [s]) F true None) = Some flag_PrintDefaults.
Proof.
  apply (main_without_peers_serves_nothing (λ s _, [s])
           (mkFlags ":8081" "k.key" "c.crt" "" "secret" ":30001" false)
           true None).
  reflexivity.
Defined.

(** The constructor [main] calls, and the listener that goes with it. *)
Definition backend_call (Split : string → string → list string) (F : flags)
  : effect :=
  if insecure F
  then ssgrpc_NewInsecureBackend (grpcHostPort F) (Split (peerList F) ",")
  else ssgrpc_NewBackend (key F) (cert F) (grpcHostPort F)
         (String.list_byte_of_string (sharedKey F)) (Split (peerList F) ",").

Definition listener_call (F : flags) : effect :=
  if insecure F
  then http_ListenAndServe (webPort F)
  else http_ListenAndServeTLS (webPort F) (cert F) (key F).

(** X16. With a non-empty peer list [main] calls exactly one backend
    constructor, chosen by the insecure flag: the insecure one, or the one
    with key, certificate and shared key. When the constructor ends the
    process, as on a malformed peer, nothing follows it: no handler, no
    listener. When it returns, [main] starts exactly one listener, and the
    two agree: the insecure backend goes with the plain listener, the
    other with the TLS listener on the same certificate and key; a fatal
    error is logged exactly when the listener returns one. *)
Theorem main_pairs_backend_and_listener
    (Split : string → string → list string) (F : flags) (built : bool)
    (listen : option error) :
  peerList F ≠ "" →
  let es := main Split F built listen in
  filter is_backend es = [backend_call Split F]
  ∧ (built = false →
     filter is_serving es = [backend_call Split F]
     ∧ last es = Some (backend_call Split F))
  ∧ (built = true →
     filter is_listen es = [listener_call F]
     ∧ last (filter is_serving es)
       = Some (from_option log_Err_Fatalln (listener_call F) listen)
     ∧ filter is_fatal es
       = match listen with Some err => [log_Err_Fatalln err] | None => [] end).
Proof.
  intros Hp es. subst es. unfold main, backend_call, listener_call.
  destruct (decide (peerList F = "")); [done |].
  split_and!.
  - destruct (insecure F), built, listen; reflexivity.
  - intros ->. destruct (insecure F); split; reflexivity.
  - intros ->. destruct (insecure F), listen; split_and!; reflexivity.
Qed.

Lemma main_pairs_backend_and_listener_witness :
  let Split := λ (s _ : string), [s] in
  let F := mkFlags ":8081" "k.key" "c.crt" "b@host:30002" "secret" ":30001"
             false in
  let listen := Some (Err "bind: address already in use") in
  let es := main Split F true listen in
  filter is_backend es = [backend_call Split F]
  ∧ (true = false →
     filter is_serving es = [backend_call Split F]
     ∧ last es = Some (backend_call Split F))
  ∧ (true = true →
     filter is_listen es = [listener_call F]
     ∧ last (filter is_serving es)
       = Some (from_option log_Err_Fatalln (listener_call F) listen)
     ∧ filter is_fatal es
       = match listen with Some err => [log_Err_Fatalln err] | None => [] end).
Proof.
  apply (main_pairs_backend_and_listener (λ s _, [s])
           (mkFlags ":8081" "k.key" "c.crt" "b@host:30002" "secret" ":30001" false)
           true (Some (Err "bind: address already in use"))).
  discriminate.
Defined.

(** Started in secure mode with a peer list the constructor refuses,
    [main] stops at the constructor: the web server never listens. *)
Example refused_peers_start_nothing :
  let F := mkFlags ":8081" "k.key" "c.crt" "," "secret" ":30001" false in
  let es := main (λ _ _, [""; ""]) F false None in
  filter is_listen es = []
  ∧ last es
    = Some (ssgrpc_NewBackend "k.key" "c.crt" ":30001"
              (String.list_byte_of_string "secret") [""; ""]).
Proof. split; reflexivity. Qed.

End MultihomeProofs.
